(** * mapgroups/models.py: map groups, memberships, featured ranking, activity

    A shallow embedding of the Django models of [mapgroups/models.py] and of
    the operations attached to them ([MapGroupManager.create],
    [MapGroup.rename], [MapGroup.has_member], [MapGroup.get_member],
    [MapGroup._permission_group_name] and the derived managers).

    - Tables are lists of rows, in the order the store holds them: a queryset
      without [order_by] is read in that order.
    - An unsaved Python object has [pk = None]; [save] inserts it with the next
      primary key, or updates the row that has its primary key.
    - A Python exception is a [Raise] result.  No function of the module
      opens a transaction, so every write that happened before the exception
      stays in the store: the monad threads the world through a failure.
    - The store enforces what the models declare and every backend checks:
      primary keys, mandatory foreign keys and the UNIQUE constraints.  The
      lengths of the character columns are not enforced (as in SQLite).
    - [slugify] (django.utils.text) is a parameter of the development;
      [get_random_string] (django.utils.crypto) draws from an explicit
      generator state. *)

From Stdlib Require Import ZArith Lia Ascii.
From stdpp Require Import base decidable option list sorting strings.

Local Open Scope Z_scope.
Local Open Scope nat_scope.

(** ** Strings *)

(** Python's [s[:k]] for [0 <= k]. *)
Definition slice_to (k : nat) (s : string) : string := String.substring 0 k s.

Fixpoint string_forall (P : ascii → Prop) (s : string) : Prop :=
  match s with
  | EmptyString => True
  | String c s' => P c ∧ string_forall P s'
  end.

Fixpoint string_of_chars (l : list ascii) : string :=
  match l with
  | [] => EmptyString
  | c :: l' => String c (string_of_chars l')
  end.

Definition between (lo hi c : ascii) : bool :=
  (nat_of_ascii lo <=? nat_of_ascii c) && (nat_of_ascii c <=? nat_of_ascii hi).

Definition alphanumeric (c : ascii) : bool :=
  between "a" "z" c || between "A" "Z" c || between "0" "9" c.

(** ** django.utils.crypto.get_random_string *)

(** The generator: an unbounded supply of raw draws and the number of draws
    already consumed. *)
Record RNG := { draws : nat → nat; pos : nat }.

Definition allowed_chars : string :=
  "abcdefghijklmnopqrstuvwxyzABCDEFGHIJKLMNOPQRSTUVWXYZ0123456789".

(** [random.choice(seq)]: one draw, reduced to an index of [seq].  The
    fallback character is only there for an empty [seq], where Python raises;
    [allowed_chars] is not empty. *)
Definition random_choice (seq : string) (r : RNG) : ascii * RNG :=
  (default "000"%char (String.get (draws r (pos r) mod String.length seq) seq),
   {| draws := draws r; pos := S (pos r) |}).

(** [''.join(random.choice(allowed_chars) for i in range(length))] *)
Fixpoint get_random_string (len : nat) (r : RNG) : string * RNG :=
  match len with
  | 0 => (EmptyString, r)
  | S n =>
      let '(c, r1) := random_choice allowed_chars r in
      let '(s, r2) := get_random_string n r1 in
      (String c s, r2)
  end.

(** ** Exceptions and the world *)

Inductive Exception :=
  | IntegrityError            (* the spec's UniqueConstraintViolation *)
  | DoesNotExist
  | MultipleObjectsReturned.

Inductive Result (A : Type) :=
  | Ok (a : A)
  | Raise (e : Exception).
Arguments Ok {A} a.
Arguments Raise {A} e.

Global Instance Exception_eq_dec : EqDecision Exception.
Proof. solve_decision. Defined.

(** *** Rows *)

(** django.contrib.auth.models.Group: [name] is unique, at most 80 characters. *)
Record Group := {
  group_pk : option nat;
  group_name : string;
}.

(** django.contrib.auth.models.User, as far as the module reads it. *)
Record User := {
  user_pk : nat;
  is_active : bool;
}.

(** What a view hands to [has_member]: a stored user or Django's
    [AnonymousUser]. *)
Inductive AnyUser :=
  | AnonymousUser
  | Authenticated (u : User).

Definition is_anonymous (user : AnyUser) : bool :=
  match user with AnonymousUser => true | Authenticated _ => false end.

Definition any_is_active (user : AnyUser) : bool :=
  match user with AnonymousUser => false | Authenticated u => is_active u end.

Definition any_pk (user : AnyUser) : option nat :=
  match user with AnonymousUser => None | Authenticated u => Some (user_pk u) end.

Record MapGroup := {
  pk : option nat;
  name : string;
  slug : string;
  owner : option nat;              (* ForeignKey(User) *)
  blurb : string;
  permission_group : option nat;   (* ForeignKey(Group, unique=True) *)
  is_open : bool;
}.

Record MapGroupMember := {
  member_pk : option nat;
  user : option nat;               (* ForeignKey(User) *)
  map_group : option nat;          (* ForeignKey(MapGroup) *)
  date_joined : option Z;          (* auto_now_add *)
  is_manager : bool;
  show_real_name : bool;
}.

Record FeaturedGroups := {
  fg_pk : option nat;
  rank : nat;                      (* PositiveIntegerField(unique=True) *)
  fg_map_group : option nat;       (* ForeignKey(MapGroup, unique=True) *)
}.

Record ActivityLog := {
  log_pk : option nat;
  group : option nat;
  message : string;
  date_created : Z;                (* auto_now_add *)
  admin : bool;
  associated_user : option nat;
}.

Global Instance Group_eq_dec : EqDecision Group.
Proof. solve_decision. Defined.
Global Instance MapGroup_eq_dec : EqDecision MapGroup.
Proof. solve_decision. Defined.
Global Instance MapGroupMember_eq_dec : EqDecision MapGroupMember.
Proof. solve_decision. Defined.
Global Instance FeaturedGroups_eq_dec : EqDecision FeaturedGroups.
Proof. solve_decision. Defined.
Global Instance ActivityLog_eq_dec : EqDecision ActivityLog.
Proof. solve_decision. Defined.

(** *** The store *)

Record DB := {
  auth_group : list Group;
  auth_user_groups : list (nat * nat);   (* user.groups: (user, group) *)
  sharing : list nat;                    (* groups passed to enable_sharing *)
  mapgroup : list MapGroup;
  mapgroupmember : list MapGroupMember;
  featuredgroups : list FeaturedGroups;
  activitylog : list ActivityLog;
}.

Record World := {
  db : DB;
  rng : RNG;
  clock : Z;                             (* timezone.now() *)
}.

(** *** The monad of the module's operations *)

Definition M (A : Type) : Type := World → Result A * World.

Global Instance M_ret : MRet M := λ A a w, (Ok a, w).
Global Instance M_bind : MBind M := λ A B f m w,
  match m w with
  | (Ok a, w') => f a w'
  | (Raise e, w') => (Raise e, w')
  end.

Definition raise {A} (e : Exception) : M A := λ w, (Raise e, w).
Definition get_db : M DB := λ w, (Ok (db w), w).
Definition with_db (d : DB) (w : World) : World :=
  {| db := d; rng := rng w; clock := clock w |}.
Definition put_db (d : DB) : M unit := λ w, (Ok (), with_db d w).

(** The world after [n] more draws from the generator. *)
Definition advance (n : nat) (w : World) : World :=
  {| db := db w;
     rng := {| draws := draws (rng w); pos := pos (rng w) + n |};
     clock := clock w |}.
Definition now : M Z := λ w, (Ok (clock w), w).
Definition with_rng {A} (f : RNG → A * RNG) : M A :=
  λ w, let '(a, r) := f (rng w) in
       (Ok a, {| db := db w; rng := r; clock := clock w |}).
Definition lift_result {A} (r : Result A) : M A := λ w, (r, w).

(** ** Tables *)

(** [fk] points at the row whose primary key is [key]; an unsaved row
    ([key = None]) is pointed at by nothing. *)
Definition refers_to (fk key : option nat) : Prop := is_Some key ∧ fk = key.

Global Instance refers_to_dec fk key : Decision (refers_to fk key).
Proof. unfold refers_to. apply _. Defined.

(** [QuerySet.get]: exactly one row, or an exception. *)
Definition queryset_get {A} (qs : list A) : Result A :=
  match qs with
  | [] => Raise DoesNotExist
  | [a] => Ok a
  | _ :: _ :: _ => Raise MultipleObjectsReturned
  end.

(** [QuerySet.exists] *)
Definition queryset_exists {A} (qs : list A) : bool :=
  match qs with [] => false | _ :: _ => true end.

Section table.
Context {R : Type} (key : R → option nat) (set_key : nat → R → R).

(** The next value of the table's AutoField. *)
Definition next_pk (t : list R) : nat := S (max_list (omap key t)).

Definition row_exists (k : nat) (t : list R) : Prop :=
  Exists (λ r, key r = Some k) t.

Definition update_row (k : nat) (new : R) (t : list R) : list R :=
  (λ r, if decide (key r = Some k) then new else r) <$> t.

(** A row of the table other than [obj] that agrees with [obj] on the
    column(s) [col]: what a UNIQUE constraint forbids. *)
Definition unique_clash {C} `{EqDecision C} (col : R → C) (obj : R)
    (t : list R) : Prop :=
  Exists (λ r, ¬ refers_to (key r) (key obj) ∧ col r = col obj) t.

(** [Model.save]: the constraints of the table are checked by the store;
    an object with a primary key updates its row when there is one, and is
    inserted otherwise; an object without one is inserted under the next
    key.  [on_insert] is the pre-save work of an insertion
    ([auto_now_add]). *)
Definition save_base (violates : R → list R → Prop)
    `{∀ obj t, Decision (violates obj t)} (on_insert : R → R)
    (obj : R) (t : list R) : Result (R * list R) :=
  if decide (violates obj t) then Raise IntegrityError
  else match key obj with
       | Some k =>
           if decide (row_exists k t) then Ok (obj, update_row k obj t)
           else let obj' := on_insert obj in Ok (obj', t ++ [obj'])
       | None =>
           let obj' := on_insert (set_key (next_pk t) obj) in
           Ok (obj', t ++ [obj'])
       end.
End table.

(** *** Field writes *)

Definition set_group_pk (k : nat) (g : Group) : Group :=
  {| group_pk := Some k; group_name := group_name g |}.
Definition set_group_name (s : string) (g : Group) : Group :=
  {| group_pk := group_pk g; group_name := s |}.

Definition set_pk (k : nat) (g : MapGroup) : MapGroup :=
  {| pk := Some k; name := name g; slug := slug g; owner := owner g;
     blurb := blurb g; permission_group := permission_group g;
     is_open := is_open g |}.
Definition set_name (s : string) (g : MapGroup) : MapGroup :=
  {| pk := pk g; name := s; slug := slug g; owner := owner g;
     blurb := blurb g; permission_group := permission_group g;
     is_open := is_open g |}.
Definition set_slug (s : string) (g : MapGroup) : MapGroup :=
  {| pk := pk g; name := name g; slug := s; owner := owner g;
     blurb := blurb g; permission_group := permission_group g;
     is_open := is_open g |}.
Definition set_permission_group (p : option nat) (g : MapGroup) : MapGroup :=
  {| pk := pk g; name := name g; slug := slug g; owner := owner g;
     blurb := blurb g; permission_group := p; is_open := is_open g |}.

Definition set_member_pk (k : nat) (m : MapGroupMember) : MapGroupMember :=
  {| member_pk := Some k; user := user m; map_group := map_group m;
     date_joined := date_joined m; is_manager := is_manager m;
     show_real_name := show_real_name m |}.
Definition set_date_joined (t : Z) (m : MapGroupMember) : MapGroupMember :=
  {| member_pk := member_pk m; user := user m; map_group := map_group m;
     date_joined := Some t; is_manager := is_manager m;
     show_real_name := show_real_name m |}.

Definition set_auth_group (t : list Group) (d : DB) : DB :=
  {| auth_group := t; auth_user_groups := auth_user_groups d;
     sharing := sharing d; mapgroup := mapgroup d;
     mapgroupmember := mapgroupmember d; featuredgroups := featuredgroups d;
     activitylog := activitylog d |}.
Definition set_auth_user_groups (t : list (nat * nat)) (d : DB) : DB :=
  {| auth_group := auth_group d; auth_user_groups := t;
     sharing := sharing d; mapgroup := mapgroup d;
     mapgroupmember := mapgroupmember d; featuredgroups := featuredgroups d;
     activitylog := activitylog d |}.
Definition set_sharing (t : list nat) (d : DB) : DB :=
  {| auth_group := auth_group d; auth_user_groups := auth_user_groups d;
     sharing := t; mapgroup := mapgroup d;
     mapgroupmember := mapgroupmember d; featuredgroups := featuredgroups d;
     activitylog := activitylog d |}.
Definition set_mapgroup (t : list MapGroup) (d : DB) : DB :=
  {| auth_group := auth_group d; auth_user_groups := auth_user_groups d;
     sharing := sharing d; mapgroup := t;
     mapgroupmember := mapgroupmember d; featuredgroups := featuredgroups d;
     activitylog := activitylog d |}.
Definition set_mapgroupmember (t : list MapGroupMember) (d : DB) : DB :=
  {| auth_group := auth_group d; auth_user_groups := auth_user_groups d;
     sharing := sharing d; mapgroup := mapgroup d;
     mapgroupmember := t; featuredgroups := featuredgroups d;
     activitylog := activitylog d |}.

(** ** django.contrib.auth and features.registry, as the module calls them *)

(** [Group.name] is declared unique. *)
Definition Group_violates (g : Group) (t : list Group) : Prop :=
  unique_clash group_pk group_name g t.

Global Instance Group_violates_dec g t : Decision (Group_violates g t).
Proof. unfold Group_violates, unique_clash. apply _. Defined.

Definition Group_save (g : Group) : M Group :=
  d ← get_db;
  '(g', t) ← lift_result
     (save_base group_pk set_group_pk Group_violates id g (auth_group d));
  put_db (set_auth_group t d);;
  mret g'.

(** [Group.objects.create(name=name)] *)
Definition Group_objects_create (name : string) : M Group :=
  Group_save {| group_pk := None; group_name := name |}.

(** [enable_sharing(pg)] of [features.registry], a package outside the
    repository: the registry records the group it is called with. *)
Definition enable_sharing (pg : Group) : M unit :=
  d ← get_db;
  put_db (set_sharing (sharing d ++ option_list (group_pk pg)) d).

(** [owner.groups.add(pg)]: a pair already there is not added again. *)
Definition m2m_add (pair : nat * nat) (t : list (nat * nat)) : list (nat * nat) :=
  if decide (pair ∈ t) then t else t ++ [pair].

Definition groups_add (owner : User) (pg : Group) : M unit :=
  d ← get_db;
  put_db (set_auth_user_groups
            (from_option (λ g, m2m_add (user_pk owner, g) (auth_user_groups d))
               (auth_user_groups d) (group_pk pg))
            d).

(** ** class MapGroupMember *)

(** [user] and [map_group] are mandatory; [unique_together] forbids a second
    row with the same pair. *)
Definition MapGroupMember_violates (m : MapGroupMember)
    (t : list MapGroupMember) : Prop :=
  user m = None ∨ map_group m = None ∨
  unique_clash member_pk (λ r, (user r, map_group r)) m t.

Global Instance MapGroupMember_violates_dec m t :
  Decision (MapGroupMember_violates m t).
Proof. unfold MapGroupMember_violates, unique_clash. apply _. Defined.

Definition MapGroupMember_new : MapGroupMember :=
  {| member_pk := None; user := None; map_group := None; date_joined := None;
     is_manager := false; show_real_name := false |}.

Definition MapGroupMember_save (m : MapGroupMember) : M MapGroupMember :=
  d ← get_db;
  t ← now;
  '(m', rows) ← lift_result
     (save_base member_pk set_member_pk MapGroupMember_violates
        (set_date_joined t) m (mapgroupmember d));
  put_db (set_mapgroupmember rows d);;
  mret m'.

(** ** class MapGroup *)

(** [owner] and [permission_group] are mandatory; [permission_group] is
    declared unique. *)
Definition MapGroup_violates (g : MapGroup) (t : list MapGroup) : Prop :=
  owner g = None ∨ permission_group g = None ∨
  unique_clash pk permission_group g t.

Global Instance MapGroup_violates_dec g t : Decision (MapGroup_violates g t).
Proof. unfold MapGroup_violates, unique_clash. apply _. Defined.

(** [MapGroup()] *)
Definition MapGroup_new : MapGroup :=
  {| pk := None; name := ""; slug := ""; owner := None; blurb := "";
     permission_group := None; is_open := false |}.

(** [self.mapgroupmember_set] *)
Definition mapgroupmember_set (self : MapGroup) (d : DB) : list MapGroupMember :=
  filter (λ m, refers_to (map_group m) (pk self)) (mapgroupmember d).

(** [.filter(user=user)] *)
Definition filter_user (user0 : AnyUser) (qs : list MapGroupMember) :
    list MapGroupMember :=
  filter (λ m, refers_to (user m) (any_pk user0)) qs.

Definition has_member (self : MapGroup) (user0 : AnyUser) (d : DB) : bool :=
  if is_anonymous user0 || negb (any_is_active user0) then false
  else queryset_exists (filter_user user0 (mapgroupmember_set self d)).

Definition get_member (self : MapGroup) (user0 : AnyUser) (d : DB) :
    Result (option MapGroupMember) :=
  if is_anonymous user0 || negb (any_is_active user0) then Ok None
  else match queryset_get (filter_user user0 (mapgroupmember_set self d)) with
       | Ok m => Ok (Some m)
       | Raise DoesNotExist => Ok None
       | Raise e => Raise e
       end.

(** [self.permission_group]: the related row, read from the store. *)
Definition related_permission_group (self : MapGroup) : M Group :=
  d ← get_db;
  lift_result
    (queryset_get
       (filter (λ g, refers_to (permission_group self) (group_pk g))
          (auth_group d))).

Section slugify.
(** [django.utils.text.slugify] *)
Variable slugify : string → string.

Definition MapGroup_save (self : MapGroup) : M MapGroup :=
  let self := set_slug (slugify (name self)) self in
  d ← get_db;
  '(self', t) ← lift_result
     (save_base pk set_pk MapGroup_violates id self (mapgroup d));
  put_db (set_mapgroup t d);;
  mret self'.

Definition _permission_group_name (self : MapGroup) : M string :=
  let name := slugify (name self) in
  suffix ← with_rng (get_random_string 8);
  mret (slice_to (min (80 - 8) (String.length name)) name +:+ suffix).

(** Returns the renamed object and its permission group, which the Python
    code mutates in place. *)
Definition rename (self : MapGroup) (new_name : string) : M (MapGroup * Group) :=
  let self := set_name new_name self in
  self ← MapGroup_save self;
  name ← _permission_group_name self;
  pg ← related_permission_group self;
  let pg := set_group_name name pg in
  pg ← Group_save pg;
  mret (self, pg).

(** [MapGroupManager.create] *)
Definition create (name0 : string) (owner0 : User) (open : bool)
    (blurb0 : string) : M (MapGroup * MapGroupMember) :=
  let mg :=
    {| pk := None; name := name0; slug := slug MapGroup_new;
       owner := Some (user_pk owner0); blurb := blurb0;
       permission_group := permission_group MapGroup_new;
       is_open := open |} in
  name ← _permission_group_name mg;
  pg ← Group_objects_create name;
  enable_sharing pg;;
  let mg := set_permission_group (group_pk pg) mg in
  mg ← MapGroup_save mg;
  groups_add owner0 pg;;
  let member :=
    {| member_pk := None; user := Some (user_pk owner0);
       map_group := pk mg; date_joined := date_joined MapGroupMember_new;
       is_manager := true;
       show_real_name := show_real_name MapGroupMember_new |} in
  member ← MapGroupMember_save member;
  mret (mg, member).
End slugify.

(** ** The derived managers *)

(** [MapGroupNonFeaturedManager.get_queryset]:
    [filter(featuredgroups__isnull=True)], the groups that no featured row
    points at. *)
Definition MapGroupNonFeaturedManager_get_queryset (d : DB) : list MapGroup :=
  filter (λ g, Forall (λ f, ¬ refers_to (fg_map_group f) (pk g))
                 (featuredgroups d))
    (mapgroup d).

(** [MapGroupFeaturedManager.get_queryset]:
    [filter(featuredgroups__isnull=False)], the join of the groups with the
    featured rows that point at them. *)
Definition MapGroupFeaturedManager_get_queryset (d : DB) : list MapGroup :=
  g ← mapgroup d;
  f ← filter (λ f, refers_to (fg_map_group f) (pk g)) (featuredgroups d);
  [g].

Definition rank_le : relation FeaturedGroups := λ a b, rank a ≤ rank b.

Global Instance rank_le_dec : RelDecision rank_le.
Proof. intros a b. unfold rank_le. apply _. Defined.

Global Instance rank_le_trans : Transitive rank_le.
Proof. intros a b c. unfold rank_le. lia. Defined.

Global Instance rank_le_total : Total rank_le.
Proof. intros a b. unfold rank_le. lia. Defined.


(** [RecentActivityManager.get_queryset]: [filter(date_created__lte=7)].
    Timestamps are integers on the scale of the store (seconds since the
    epoch in the samples); the lookup value is the literal 7 of the source,
    and the clock is not read. *)
Definition RecentActivityManager_get_queryset (d : DB) : list ActivityLog :=
  filter (λ a, (date_created a ≤ 7)%Z) (activitylog d).

(** ** An instance of [slugify] for ASCII names

    [re.sub('[^\w\s-]', '', value).strip().lower()], then
    [re.sub('[-\s]+', '-', value)].  It instantiates the parameter in the
    examples below. *)
Module AsciiSlugify.
Definition is_word (c : ascii) : bool :=
  alphanumeric c || bool_decide (c = "_"%char).

Definition is_sep (c : ascii) : bool :=
  Ascii.is_space c || bool_decide (c = "-"%char).

Definition lower (c : ascii) : ascii :=
  if between "A" "Z" c then ascii_of_nat (nat_of_ascii c + 32) else c.

Fixpoint lstrip (l : list ascii) : list ascii :=
  match l with
  | c :: l' => if Ascii.is_space c then lstrip l' else l
  | [] => []
  end.

Definition strip (l : list ascii) : list ascii :=
  reverse (lstrip (reverse (lstrip l))).

Fixpoint hyphenate (in_run : bool) (l : list ascii) : list ascii :=
  match l with
  | [] => []
  | c :: l' =>
      if is_sep c
      then if in_run then hyphenate true l'
           else "-"%char :: hyphenate true l'
      else c :: hyphenate false l'
  end.

Definition slugify (value : string) : string :=
  let value := filter (λ c, is_word c || is_sep c)
                 (String.list_ascii_of_string value) in
  let value := lower <$> strip value in
  string_of_chars (hyphenate false value).
End AsciiSlugify.

(** ** Constraints of the schema *)

(** A primary key: present in every stored row, and never repeated. *)
Definition primary_key {R} (key : R → option nat) (t : list R) : Prop :=
  NoDup (key <$> t) ∧ Forall (λ r, is_Some (key r)) t.

(** [MapGroupMember.Meta.unique_together = (('user', 'map_group'),)] *)
Definition unique_together (d : DB) : Prop :=
  NoDup ((λ m, (user m, map_group m)) <$> mapgroupmember d).

(** What the membership table needs to stay well formed. *)
Definition members_ok (d : DB) : Prop :=
  NoDup (member_pk <$> mapgroupmember d) ∧ unique_together d.

(** A foreign key: every row of [t] points at a row of [target]. *)
Definition references {R S} (fk : R → option nat) (key : S → option nat)
    (t : list R) (target : list S) : Prop :=
  Forall (λ r, Exists (λ s, refers_to (fk r) (key s)) target) t.

Definition referential_integrity (d : DB) : Prop :=
  references permission_group group_pk (mapgroup d) (auth_group d) ∧
  references map_group pk (mapgroupmember d) (mapgroup d).

(** A Membership for the pair (user, group). *)
Definition membership_of (self : MapGroup) (user0 : AnyUser)
    (m : MapGroupMember) : Prop :=
  refers_to (user m) (any_pk user0) ∧ refers_to (map_group m) (pk self).

(** The permission-group name that [_permission_group_name] derives for a
    display name in the world [w]. *)
Definition derived_name (slugify : string → string) (name0 : string)
    (w : World) : string :=
  slice_to (min 72 (String.length (slugify name0))) (slugify name0)
  +:+ (get_random_string 8 (rng w)).1.

(** The group has a FeaturedRank. *)
Definition has_rank (d : DB) (g : MapGroup) : Prop :=
  Exists (λ f, refers_to (fg_map_group f) (pk g)) (featuredgroups d).

Global Instance has_rank_dec d g : Decision (has_rank d g).
Proof. unfold has_rank. apply _. Defined.



(** The age of an activity record at time [t], and the records no older than
    [window]. *)
Definition age (t : Z) (a : ActivityLog) : Z := (t - date_created a)%Z.

Definition within_window (t window : Z) (d : DB) : list ActivityLog :=
  filter (λ a, (0 ≤ age t a ≤ window)%Z) (activitylog d).

(** ** The stores the module can produce *)

Definition empty_db : DB :=
  {| auth_group := []; auth_user_groups := []; sharing := []; mapgroup := [];
     mapgroupmember := []; featuredgroups := []; activitylog := [] |}.

(** One call into the module, or a write by another part of the site that
    leaves the membership table alone (memberships are written through
    [MapGroupMember.save] only). *)
Inductive step (slugify : string → string) : World → World → Prop :=
  | step_create name0 owner0 open blurb0 w :
      step slugify w (create slugify name0 owner0 open blurb0 w).2
  | step_rename self new_name w :
      step slugify w (rename slugify self new_name w).2
  | step_member_save m w :
      step slugify w (MapGroupMember_save m w).2
  | step_elsewhere w w' :
      mapgroupmember (db w') = mapgroupmember (db w) →
      step slugify w w'.

Inductive reachable (slugify : string → string) : World → Prop :=
  | reachable_empty r t :
      reachable slugify {| db := empty_db; rng := r; clock := t |}
  | reachable_step w w' :
      reachable slugify w → step slugify w w' → reachable slugify w'.

(** ** Sample data *)

Module Sample.
(** A generator that keeps drawing 0, the index of ["a"]. *)
Definition zeros (n : nat) : RNG := {| draws := λ _, 0; pos := n |}.

Definition alice : User := {| user_pk := 1; is_active := true |}.
Definition bob : User := {| user_pk := 2; is_active := false |}.

Definition w_empty : World :=
  {| db := empty_db; rng := zeros 0; clock := 1700000000 |}.

(** After [create("Fish", alice, blurb="anglers")]. *)
Definition g_fish : MapGroup :=
  {| pk := Some 1; name := "Fish"; slug := "fish"; owner := Some 1;
     blurb := "anglers"; permission_group := Some 1; is_open := false |}.
Definition pg_fish : Group :=
  {| group_pk := Some 1; group_name := "fishaaaaaaaa" |}.
Definition m_alice : MapGroupMember :=
  {| member_pk := Some 1; user := Some 1; map_group := Some 1;
     date_joined := Some 1700000000%Z; is_manager := true;
     show_real_name := false |}.
Definition db_fish : DB :=
  {| auth_group := [pg_fish]; auth_user_groups := [(1, 1)]; sharing := [1];
     mapgroup := [g_fish]; mapgroupmember := [m_alice];
     featuredgroups := []; activitylog := [] |}.
Definition w_fish : World :=
  {| db := db_fish; rng := zeros 8; clock := 1700000000 |}.

(** After [create("Bob's", bob)] in the empty store. *)
Definition g_bob : MapGroup :=
  {| pk := Some 1; name := "Bob's"; slug := "bobs"; owner := Some 2;
     blurb := ""; permission_group := Some 1; is_open := false |}.
Definition m_bob : MapGroupMember :=
  {| member_pk := Some 1; user := Some 2; map_group := Some 1;
     date_joined := Some 1700000000%Z; is_manager := true;
     show_real_name := false |}.
Definition db_bob : DB :=
  {| auth_group := [{| group_pk := Some 1; group_name := "bobsaaaaaaaa" |}];
     auth_user_groups := [(2, 1)]; sharing := [1];
     mapgroup := [g_bob]; mapgroupmember := [m_bob];
     featuredgroups := []; activitylog := [] |}.
Definition w_bob : World :=
  {| db := db_bob; rng := zeros 8; clock := 1700000000 |}.

(** After [create("New Name", alice)] on top of [w_fish]. *)
Definition g_new : MapGroup :=
  {| pk := Some 2; name := "New Name"; slug := "new-name"; owner := Some 1;
     blurb := ""; permission_group := Some 2; is_open := false |}.
Definition pg_new : Group :=
  {| group_pk := Some 2; group_name := "new-nameaaaaaaaa" |}.
Definition m_alice2 : MapGroupMember :=
  {| member_pk := Some 2; user := Some 1; map_group := Some 2;
     date_joined := Some 1700000000%Z; is_manager := true;
     show_real_name := false |}.
Definition db_two : DB :=
  {| auth_group := [pg_fish; pg_new]; auth_user_groups := [(1, 1); (1, 2)];
     sharing := [1; 2]; mapgroup := [g_fish; g_new];
     mapgroupmember := [m_alice; m_alice2];
     featuredgroups := []; activitylog := [] |}.
Definition w_two : World :=
  {| db := db_two; rng := zeros 16; clock := 1700000000 |}.

(** [g_fish] after its display name was written as "New Name". *)
Definition g_fish_renamed : MapGroup :=
  {| pk := Some 1; name := "New Name"; slug := "new-name"; owner := Some 1;
     blurb := "anglers"; permission_group := Some 1; is_open := false |}.

(** Three groups, featured with the ranks 3, 1 and 2. *)
Definition group_n (k : nat) (s : string) : MapGroup :=
  {| pk := Some k; name := s; slug := s; owner := Some 1; blurb := "";
     permission_group := Some k; is_open := false |}.
Definition featured_n (k r g : nat) : FeaturedGroups :=
  {| fg_pk := Some k; rank := r; fg_map_group := Some g |}.
Definition db_featured : DB :=
  {| auth_group := []; auth_user_groups := []; sharing := [];
     mapgroup := [group_n 1 "one"; group_n 2 "two"; group_n 3 "three";
                  group_n 4 "four"];
     mapgroupmember := [];
     featuredgroups := [featured_n 1 3 1; featured_n 2 1 2; featured_n 3 2 3];
     activitylog := [] |}.

End Sample.


(** ** class ActivityLog *)

Definition set_log_pk (k : nat) (a : ActivityLog) : ActivityLog :=
  {| log_pk := Some k; group := group a; message := message a;
     date_created := date_created a; admin := admin a;
     associated_user := associated_user a |}.
Definition set_date_created (t : Z) (a : ActivityLog) : ActivityLog :=
  {| log_pk := log_pk a; group := group a; message := message a;
     date_created := t; admin := admin a;
     associated_user := associated_user a |}.
Definition set_activitylog (t : list ActivityLog) (d : DB) : DB :=
  {| auth_group := auth_group d; auth_user_groups := auth_user_groups d;
     sharing := sharing d; mapgroup := mapgroup d;
     mapgroupmember := mapgroupmember d; featuredgroups := featuredgroups d;
     activitylog := t |}.

(** [group] is mandatory; [associated_user] is declared [null=True]. *)
Definition ActivityLog_violates (a : ActivityLog) (t : list ActivityLog) : Prop :=
  group a = None.

Global Instance ActivityLog_violates_dec a t :
  Decision (ActivityLog_violates a t).
Proof. unfold ActivityLog_violates. apply _. Defined.

(** [ActivityLog.save]: the model has no [save] of its own; [date_created]
    is [auto_now_add], written from the clock when the row is inserted. *)
Definition ActivityLog_save (a : ActivityLog) : M ActivityLog :=
  d ← get_db;
  t ← now;
  '(a', rows) ← lift_result
     (save_base log_pk set_log_pk ActivityLog_violates
        (set_date_created t) a (activitylog d));
  put_db (set_activitylog rows d);;
  mret a'.

(** ** [MapGroupMember.user_name_for_group]

    [get_full_name] and [get_short_name] are methods of Django's User; they
    are given here by the primary key of the stored user.  Reading
    [self.user] of a Membership without a user raises DoesNotExist. *)
Definition user_name_for_group (get_full_name get_short_name : nat → string)
    (self : MapGroupMember) : Result string :=
  match user self with
  | None => Raise DoesNotExist
  | Some u =>
      Ok (if show_real_name self then get_full_name u else get_short_name u)
  end.

(** ** Stores built through the module *)

(** What the models declare, over the three tables the module writes: the
    primary keys, the UNIQUE columns, the foreign keys, the mandatory
    columns, and the slug that [MapGroup.save] derives. *)
Record store_ok (slugify : string → string) (d : DB) : Prop := {
  ok_group_pk : primary_key group_pk (auth_group d);
  ok_mapgroup_pk : primary_key pk (mapgroup d);
  ok_member_pk : primary_key member_pk (mapgroupmember d);
  ok_group_name : NoDup (group_name <$> auth_group d);
  ok_permission_group : NoDup (permission_group <$> mapgroup d);
  ok_unique_together : unique_together d;
  ok_references : referential_integrity d;
  ok_slug : Forall (λ g, slug g = slugify (name g)) (mapgroup d);
  ok_owner : Forall (λ g, is_Some (owner g)) (mapgroup d);
  ok_member_user : Forall (λ m, is_Some (user m)) (mapgroupmember d);
}.

(** A call into the module by the site: a group is created, a stored group
    is renamed or saved again after an edit of its blurb or open flag, a
    Membership of a stored group is saved, an activity record is written; or
    the clock and the generator move on. *)
Inductive api_step (slugify : string → string) : World → World → Prop :=
  | api_create name0 owner0 open blurb0 w :
      api_step slugify w (create slugify name0 owner0 open blurb0 w).2
  | api_rename self new_name w :
      self ∈ mapgroup (db w) →
      api_step slugify w (rename slugify self new_name w).2
  | api_edit self blurb0 open w :
      self ∈ mapgroup (db w) →
      api_step slugify w
        (MapGroup_save slugify
           {| pk := pk self; name := name self; slug := slug self;
              owner := owner self; blurb := blurb0;
              permission_group := permission_group self;
              is_open := open |} w).2
  | api_member_save m w :
      (∃ g, g ∈ mapgroup (db w) ∧ refers_to (map_group m) (pk g)) →
      api_step slugify w (MapGroupMember_save m w).2
  | api_log a w :
      api_step slugify w (ActivityLog_save a w).2
  | api_tick w r t :
      api_step slugify w {| db := db w; rng := r; clock := t |}.

Inductive api_reachable (slugify : string → string) : World → Prop :=
  | api_reachable_empty r t :
      api_reachable slugify {| db := empty_db; rng := r; clock := t |}
  | api_reachable_step w w' :
      api_reachable slugify w → api_step slugify w w' →
      api_reachable slugify w'.

(** * Properties *)

(** ** Strings and the random suffix *)

Lemma string_length_app (s1 s2 : string) :
  String.length (s1 +:+ s2) = String.length s1 + String.length s2.
Proof. induction s1 as [|c s1 IH]; simpl; [done | by rewrite <- IH]. Qed.

Lemma slice_to_length (k : nat) (s : string) :
  String.length (slice_to k s) = min k (String.length s).
Proof.
  unfold slice_to. revert k.
  induction s as [|c s IH]; intros [|k]; simpl; try done.
  by rewrite IH.
Qed.

Lemma slice_to_all (k : nat) (s : string) :
  String.length s ≤ k → slice_to k s = s.
Proof.
  unfold slice_to. revert k.
  induction s as [|c s IH]; intros [|k] Hk; simpl in *; try done; try lia.
  rewrite IH; [done | lia].
Qed.

Lemma slice_to_prefix (k : nat) (s : string) :
  String.prefix (slice_to k s) s = true.
Proof.
  unfold slice_to. revert k.
  induction s as [|c s IH]; intros [|k]; simpl; try done.
  destruct (ascii_dec c c); [apply IH | done].
Qed.

Lemma string_app_inj_suffix (p1 p2 s1 s2 : string) :
  String.length s1 = String.length s2 →
  p1 +:+ s1 = p2 +:+ s2 → p1 = p2 ∧ s1 = s2.
Proof.
  revert p2. induction p1 as [|c p1 IH]; intros [|c2 p2] Hlen Heq.
  - done.
  - exfalso. apply (f_equal String.length) in Heq.
    rewrite !string_length_app in Heq. simpl in Heq. lia.
  - exfalso. apply (f_equal String.length) in Heq.
    rewrite !string_length_app in Heq. simpl in Heq. lia.
  - change (String c (p1 +:+ s1) = String c2 (p2 +:+ s2)) in Heq.
    injection Heq as -> Heq. destruct (IH _ Hlen Heq) as [-> ->]. done.
Qed.

Lemma allowed_chars_alphanumeric (i : nat) :
  i < String.length allowed_chars →
  ∃ c, String.get i allowed_chars = Some c ∧ alphanumeric c = true.
Proof.
  intros Hi. change (String.length allowed_chars) with 62 in Hi.
  do 62 (destruct i as [|i]; [vm_compute; eauto |]). lia.
Qed.

Lemma random_choice_alphanumeric (r : RNG) :
  alphanumeric (random_choice allowed_chars r).1 = true.
Proof.
  destruct (allowed_chars_alphanumeric
              (draws r (pos r) mod String.length allowed_chars))
    as (c & Hget & Hc).
  - apply Nat.mod_upper_bound. done.
  - unfold random_choice. cbn [fst]. rewrite Hget. exact Hc.
Qed.

Lemma get_random_string_spec (n : nat) (r : RNG) :
  String.length (get_random_string n r).1 = n ∧
  string_forall (λ c, alphanumeric c = true) (get_random_string n r).1 ∧
  (get_random_string n r).2 = {| draws := draws r; pos := pos r + n |}.
Proof.
  revert r. induction n as [|n IH]; intros r.
  - simpl. split_and!; [done..|]. destruct r; simpl. f_equal. lia.
  - cbn [get_random_string].
    pose proof (random_choice_alphanumeric r) as Hc.
    destruct (random_choice allowed_chars r) as [c r1] eqn:Hr1.
    specialize (IH r1).
    destruct (get_random_string n r1) as [s r2].
    cbn [fst snd] in *. destruct IH as (Hlen & Hall & ->).
    unfold random_choice in Hr1. injection Hr1 as _ <-.
    split_and!.
    + simpl. by rewrite Hlen.
    + simpl. done.
    + simpl. f_equal. lia.
Qed.

(** ** The permission-group name *)

Lemma permission_group_name_run (slugify : string → string) (self : MapGroup)
    (w : World) :
  _permission_group_name slugify self w =
    (Ok (slice_to (min 72 (String.length (slugify (name self))))
           (slugify (name self)) +:+ (get_random_string 8 (rng w)).1),
     {| db := db w;
        rng := {| draws := draws (rng w); pos := pos (rng w) + 8 |};
        clock := clock w |}).
Proof.
  unfold _permission_group_name, with_rng, mbind, M_bind, mret, M_ret.
  pose proof (get_random_string_spec 8 (rng w)) as (_ & _ & Hr).
  destruct (get_random_string 8 (rng w)) as [s r]. simpl in Hr. by subst r.
Qed.

(** C3: for every display name, the permission-group name is the slug of the
    name cut to its first [min 72 (length slug)] characters, followed by the 8
    characters drawn by [get_random_string], all of them letters or digits;
    its length is therefore at most 80.  The store is not touched. *)
Theorem permission_group_name_at_most_80 (slugify : string → string)
    (self : MapGroup) (w : World) :
  let slug := slugify (name self) in
  let prefix := slice_to (min 72 (String.length slug)) slug in
  let suffix := (get_random_string 8 (rng w)).1 in
  (_permission_group_name slugify self w).1 = Ok (prefix +:+ suffix) ∧
  db (_permission_group_name slugify self w).2 = db w ∧
  String.prefix prefix slug = true ∧
  String.length prefix = min 72 (String.length slug) ∧
  String.length suffix = 8 ∧
  string_forall (λ c, alphanumeric c = true) suffix ∧
  String.length (prefix +:+ suffix) ≤ 80.
Proof.
  intros slug prefix suffix. rewrite permission_group_name_run.
  pose proof (get_random_string_spec 8 (rng w)) as (Hlen & Hall & _).
  assert (String.length prefix = min 72 (String.length slug)) as Hp.
  { unfold prefix. rewrite slice_to_length. lia. }
  split_and!; try done.
  - apply slice_to_prefix.
  - rewrite string_length_app, Hp. fold suffix in Hlen. lia.
Qed.

(** The spec's example: a display name of 500 characters. *)
Example permission_group_name_500 :
  ∀ w, ∃ s,
    (_permission_group_name AsciiSlugify.slugify
       (set_name (string_of_chars (replicate 500 "M"%char)) MapGroup_new) w).1
      = Ok s ∧ String.length s = 80.
Proof.
  intros w. eexists. rewrite permission_group_name_run. split; [done|].
  rewrite string_length_app, slice_to_length.
  pose proof (get_random_string_spec 8 (rng w)) as (-> & _). by vm_compute.
Qed.

(** ** Running the operations *)

Section save_base_facts.
Context {R : Type} (key : R → option nat) (set_key : nat → R → R).
Context (violates : R → list R → Prop) `{∀ obj t, Decision (violates obj t)}.
Context (on_insert : R → R).

Lemma save_base_Raise obj t e :
  save_base key set_key violates on_insert obj t = Raise e →
  e = IntegrityError ∧ violates obj t.
Proof.
  unfold save_base. case_decide; [naive_solver|].
  destruct (key obj); [case_decide|]; done.
Qed.

Lemma save_base_Ok obj t obj' t' :
  save_base key set_key violates on_insert obj t = Ok (obj', t') →
  ¬ violates obj t ∧
  ((∃ k, key obj = Some k ∧ row_exists key k t ∧
         obj' = obj ∧ t' = update_row key k obj t) ∨
   (∃ k, key obj = Some k ∧ ¬ row_exists key k t ∧
         obj' = on_insert obj ∧ t' = t ++ [obj']) ∨
   (key obj = None ∧
    obj' = on_insert (set_key (next_pk key t) obj) ∧ t' = t ++ [obj'])).
Proof.
  unfold save_base. case_decide; [done|]. split; [done|].
  destruct (key obj) as [k|]; [case_decide|]; naive_solver.
Qed.

Lemma save_base_violates obj t :
  violates obj t →
  save_base key set_key violates on_insert obj t = Raise IntegrityError.
Proof. intros. unfold save_base. by case_decide. Qed.

Lemma save_base_insert obj t :
  ¬ violates obj t → key obj = None →
  save_base key set_key violates on_insert obj t =
    Ok (on_insert (set_key (next_pk key t) obj),
        t ++ [on_insert (set_key (next_pk key t) obj)]).
Proof. intros ? Hk. unfold save_base. case_decide; [done|]. by rewrite Hk. Qed.

Lemma save_base_update obj t k :
  ¬ violates obj t → key obj = Some k → row_exists key k t →
  save_base key set_key violates on_insert obj t =
    Ok (obj, update_row key k obj t).
Proof.
  intros ? Hk ?. unfold save_base. case_decide; [done|]. rewrite Hk.
  by case_decide.
Qed.

Lemma next_pk_fresh t r : r ∈ t → key r ≠ Some (next_pk key t).
Proof.
  intros Hr Hk. unfold next_pk in Hk.
  assert (S (max_list (omap key t)) ∈ omap key t) as Hin.
  { apply list_elem_of_omap. eauto. }
  apply max_list_elem_of_le in Hin. lia.
Qed.

Lemma update_row_length k new t : length (update_row key k new t) = length t.
Proof. unfold update_row. by rewrite length_fmap. Qed.
End save_base_facts.

Lemma create_run (slugify : string → string) (name0 : string) (owner0 : User)
    (open : bool) (blurb0 : string) (w : World) :
  let nm := slice_to (min 72 (String.length (slugify name0))) (slugify name0)
            +:+ (get_random_string 8 (rng w)).1 in
  let w1 := advance 8 w in
  let d := db w in
  create slugify name0 owner0 open blurb0 w =
    match save_base group_pk set_group_pk Group_violates id
            {| group_pk := None; group_name := nm |} (auth_group d) with
    | Raise e => (Raise e, w1)
    | Ok (pg, groups) =>
        let d2 := set_sharing (sharing d ++ option_list (group_pk pg))
                    (set_auth_group groups d) in
        match save_base pk set_pk MapGroup_violates id
                {| pk := None; name := name0; slug := slugify name0;
                   owner := Some (user_pk owner0); blurb := blurb0;
                   permission_group := group_pk pg; is_open := open |}
                (mapgroup d) with
        | Raise e => (Raise e, with_db d2 w1)
        | Ok (mg, mapgroups) =>
            let d4 := set_auth_user_groups
                        (from_option
                           (λ g, m2m_add (user_pk owner0, g) (auth_user_groups d))
                           (auth_user_groups d) (group_pk pg))
                        (set_mapgroup mapgroups d2) in
            match save_base member_pk set_member_pk MapGroupMember_violates
                    (set_date_joined (clock w))
                    {| member_pk := None; user := Some (user_pk owner0);
                       map_group := pk mg; date_joined := None;
                       is_manager := true; show_real_name := false |}
                    (mapgroupmember d) with
            | Raise e => (Raise e, with_db d4 w1)
            | Ok (member, members) =>
                (Ok (mg, member), with_db (set_mapgroupmember members d4) w1)
            end
        end
    end.
Proof.
  intros nm w1 d. unfold create.
  unfold mbind at 1, M_bind at 1. rewrite permission_group_name_run.
  fold nm. change (Build_World _ _ _) with w1.
  unfold Group_objects_create, Group_save, enable_sharing, MapGroup_save,
    groups_add, MapGroupMember_save, get_db, put_db, now, lift_result,
    mbind, M_bind, mret, M_ret.
  change (db w1) with d.
  destruct (save_base group_pk _ _ _ _ _) as [[pg groups]|e]; [|done].
  cbn. destruct (save_base pk _ _ _ _ _) as [[mg mapgroups]|e]; [|done].
  cbn. destruct (save_base member_pk _ _ _ _ _) as [[member members]|e]; done.
Qed.

Lemma rename_run (slugify : string → string) (self : MapGroup)
    (new_name : string) (w : World) :
  let d := db w in
  rename slugify self new_name w =
    match save_base pk set_pk MapGroup_violates id
            (set_slug (slugify new_name) (set_name new_name self))
            (mapgroup d) with
    | Raise e => (Raise e, w)
    | Ok (self', mapgroups) =>
        let d1 := set_mapgroup mapgroups d in
        let w1 := advance 8 (with_db d1 w) in
        let nm := slice_to (min 72 (String.length (slugify (name self'))))
                    (slugify (name self'))
                  +:+ (get_random_string 8 (rng w)).1 in
        match queryset_get
                (filter (λ g, refers_to (permission_group self') (group_pk g))
                   (auth_group d)) with
        | Raise e => (Raise e, w1)
        | Ok pg =>
            match save_base group_pk set_group_pk Group_violates id
                    (set_group_name nm pg) (auth_group d) with
            | Raise e => (Raise e, w1)
            | Ok (pg', groups) =>
                (Ok (self', pg'), with_db (set_auth_group groups d1) w1)
            end
        end
    end.
Proof.
  intros d.
  unfold rename, MapGroup_save, _permission_group_name,
    related_permission_group, Group_save, with_rng, get_db, put_db,
    lift_result, mbind, M_bind, mret, M_ret.
  change (name (set_name new_name self)) with new_name. fold d.
  destruct (save_base pk _ _ _ _ _) as [[self' mapgroups]|e]; [|done].
  cbn [db rng clock with_db].
  pose proof (get_random_string_spec 8 (rng w)) as (_ & _ & Hr).
  destruct (get_random_string 8 (rng w)) as [sfx r].
  cbn [fst snd] in *. subst r. cbn [db auth_group set_mapgroup].
  destruct (queryset_get _) as [pg|e]; [|done].
  destruct (save_base group_pk _ _ _ _ _) as [[pg' groups]|e]; done.
Qed.

(** ** Membership lookups *)

Lemma queryset_exists_true {A} (qs : list A) :
  queryset_exists qs = true ↔ ∃ x, x ∈ qs.
Proof.
  destruct qs as [|x qs]; simpl.
  - split; [done | intros [x Hx]; by apply elem_of_nil in Hx].
  - split; [intros _; exists x; apply elem_of_cons; by left | done].
Qed.

Lemma filter_user_elem_of (self : MapGroup) (user0 : AnyUser) (d : DB)
    (m : MapGroupMember) :
  m ∈ filter_user user0 (mapgroupmember_set self d) ↔
  m ∈ mapgroupmember d ∧ membership_of self user0 m.
Proof.
  unfold filter_user, mapgroupmember_set, membership_of.
  rewrite !list_elem_of_filter. tauto.
Qed.

(** Rows that agree on a column without repetition: a filter that fixes the
    column keeps at most one of them. *)
Lemma filter_unique_column {A B} (f : A → B) (P : A → Prop)
    `{∀ x, Decision (P x)} (b : B) (l : list A) :
  NoDup (f <$> l) → (∀ x, P x → f x = b) → length (filter P l) ≤ 1.
Proof.
  intros Hnd HP. induction l as [|x l IH]; [simpl; lia|].
  rewrite fmap_cons in Hnd. apply NoDup_cons in Hnd. destruct Hnd as [Hx Hnd].
  rewrite filter_cons. case_decide as HPx; [|by apply IH].
  destruct (filter P l) as [|y l'] eqn:Hf; [simpl; lia|].
  exfalso. apply Hx.
  assert (y ∈ filter P l) as Hy by (rewrite Hf; apply elem_of_cons; by left).
  apply list_elem_of_filter in Hy as [HPy Hy].
  apply list_elem_of_fmap. exists y. split; [|done].
  by rewrite (HP x HPx), (HP y HPy).
Qed.

Lemma membership_at_most_one (self : MapGroup) (user0 : AnyUser) (d : DB) :
  unique_together d →
  length (filter_user user0 (mapgroupmember_set self d)) ≤ 1.
Proof.
  intros Hu. unfold filter_user, mapgroupmember_set.
  rewrite list_filter_filter.
  apply (filter_unique_column (λ m, (user m, map_group m)) _
           (any_pk user0, pk self)); [done|].
  intros m [[_ ->] [_ ->]]. done.
Qed.

Lemma has_member_active (self : MapGroup) (u : User) (d : DB) :
  is_active u = true →
  has_member self (Authenticated u) d = true ↔
  ∃ m, m ∈ mapgroupmember d ∧ membership_of self (Authenticated u) m.
Proof.
  intros Hu. unfold has_member. simpl. rewrite Hu. simpl.
  rewrite queryset_exists_true. by setoid_rewrite filter_user_elem_of.
Qed.

Lemma has_member_inactive (self : MapGroup) (u : User) (d : DB) :
  is_active u = false → has_member self (Authenticated u) d = false.
Proof. intros Hu. unfold has_member. simpl. by rewrite Hu. Qed.

(** C7: for an anonymous or inactive user, [has_member] is false and
    [get_member] is None whatever the membership table holds; for an active,
    non-anonymous user, [has_member] is true exactly when the table holds a
    Membership for the pair (user, group). *)
Theorem has_member_get_member_guard (self : MapGroup) (user0 : AnyUser)
    (d : DB) :
  (is_anonymous user0 = true ∨ any_is_active user0 = false →
   has_member self user0 d = false ∧ get_member self user0 d = Ok None) ∧
  (is_anonymous user0 = false ∧ any_is_active user0 = true →
   (has_member self user0 d = true ↔
    ∃ m, m ∈ mapgroupmember d ∧ membership_of self user0 m)).
Proof.
  unfold has_member, get_member. split.
  - intros [-> | ->]; [done|]. by rewrite orb_true_r.
  - intros [-> ->]. simpl. rewrite queryset_exists_true.
    by setoid_rewrite filter_user_elem_of.
Qed.

Lemma has_member_get_member_guard_witness :
  (has_member Sample.g_bob (Authenticated Sample.bob) Sample.db_bob = false ∧
   get_member Sample.g_bob (Authenticated Sample.bob) Sample.db_bob = Ok None) ∧
  (has_member Sample.g_fish (Authenticated Sample.alice) Sample.db_fish = true ↔
   ∃ m, m ∈ mapgroupmember Sample.db_fish ∧
        membership_of Sample.g_fish (Authenticated Sample.alice) m).
Proof.
  split.
  - apply (has_member_get_member_guard Sample.g_bob
             (Authenticated Sample.bob) Sample.db_bob).
    right. reflexivity.
  - apply (has_member_get_member_guard Sample.g_fish
             (Authenticated Sample.alice) Sample.db_fish).
    split; reflexivity.
Defined.

(** C9: in a store that satisfies [unique_together], [has_member] is true
    exactly when [get_member] returns a Membership, and false exactly when
    [get_member] returns None. *)
Theorem has_member_agrees_with_get_member (self : MapGroup) (user0 : AnyUser)
    (d : DB) :
  unique_together d →
  (has_member self user0 d = true ↔ ∃ m, get_member self user0 d = Ok (Some m)) ∧
  (has_member self user0 d = false ↔ get_member self user0 d = Ok None).
Proof.
  intros Hu. pose proof (membership_at_most_one self user0 d Hu) as Hlen.
  unfold has_member, get_member.
  destruct (is_anonymous user0 || negb (any_is_active user0)).
  - split; [split; [done | by intros [m ?]] | done].
  - destruct (filter_user user0 (mapgroupmember_set self d)) as [|m [|m' l]];
      simpl in *; [| |lia].
    + split; [split; [done | by intros [m ?]] | done].
    + split; [split; [by exists m | done] | done].
Qed.

Lemma has_member_agrees_with_get_member_witness :
  (has_member Sample.g_fish (Authenticated Sample.alice) Sample.db_fish = true ↔
   ∃ m, get_member Sample.g_fish (Authenticated Sample.alice) Sample.db_fish
          = Ok (Some m)) ∧
  (has_member Sample.g_fish (Authenticated Sample.alice) Sample.db_fish = false ↔
   get_member Sample.g_fish (Authenticated Sample.alice) Sample.db_fish
     = Ok None).
Proof.
  apply (has_member_agrees_with_get_member Sample.g_fish
           (Authenticated Sample.alice) Sample.db_fish).
  compute_done.
Defined.

(** Without the constraint the two lookups part ways: with two rows for the
    pair, [has_member] answers and [get_member] raises. *)
Example get_member_needs_unique_together :
  let d := set_mapgroupmember [Sample.m_alice; Sample.m_alice] Sample.db_fish in
  has_member Sample.g_fish (Authenticated Sample.alice) d = true ∧
  get_member Sample.g_fish (Authenticated Sample.alice) d
    = Raise MultipleObjectsReturned.
Proof. by vm_compute. Qed.

(** ** Uniqueness constraints are kept by [save] *)

Section save_base_unique.
Context {R C : Type} `{EqDecision C}.
Context (key : R → option nat) (set_key : nat → R → R) (col : R → C).
Context (violates : R → list R → Prop) `{∀ obj t, Decision (violates obj t)}.
Context (on_insert : R → R).
Hypothesis key_set_key : ∀ k r, key (set_key k r) = Some k.
Hypothesis key_on_insert : ∀ r, key (on_insert r) = key r.
Hypothesis col_set_key : ∀ k r, col (set_key k r) = col r.
Hypothesis col_on_insert : ∀ r, col (on_insert r) = col r.
Hypothesis clash_violates :
  ∀ obj t, unique_clash key col obj t → violates obj t.

Lemma update_row_no_match k new t :
  (∀ r, r ∈ t → key r ≠ Some k) → update_row key k new t = t.
Proof.
  intros Hno. unfold update_row. induction t as [|r t IH]; [done|].
  rewrite fmap_cons. case_decide as Hk.
  - exfalso. apply (Hno r); [apply elem_of_cons; by left | done].
  - f_equal. apply IH. intros r' Hr'. apply Hno, elem_of_cons. by right.
Qed.

Lemma update_row_keys k new t :
  key new = Some k → key <$> update_row key k new t = key <$> t.
Proof.
  intros Hnew. unfold update_row. rewrite <- list_fmap_compose.
  apply list_fmap_ext. intros i r _. simpl. case_decide; congruence.
Qed.

Lemma update_row_elem_of k new t r :
  r ∈ update_row key k new t → r = new ∨ (r ∈ t ∧ key r ≠ Some k).
Proof.
  unfold update_row. intros (r0 & -> & Hr0)%list_elem_of_fmap.
  case_decide; [by left | by right].
Qed.

Lemma update_row_unique_column k new t :
  NoDup (key <$> t) → NoDup (col <$> t) →
  (∀ r, r ∈ t → key r ≠ Some k → col r ≠ col new) →
  NoDup (col <$> update_row key k new t).
Proof.
  intros Hkeys Hcols Hother. induction t as [|r t IH]; [constructor|].
  rewrite fmap_cons in Hkeys. rewrite fmap_cons in Hcols.
  apply NoDup_cons in Hkeys. destruct Hkeys as [Hr Hkeys].
  apply NoDup_cons in Hcols. destruct Hcols as [Hc Hcols].
  change (update_row key k new (r :: t))
    with ((if decide (key r = Some k) then new else r)
            :: update_row key k new t).
  rewrite fmap_cons. case_decide as Hk.
  - rewrite update_row_no_match.
    + apply NoDup_cons. split; [|done].
      intros (r' & Heq & Hr')%list_elem_of_fmap.
      apply (Hother r'); [apply elem_of_cons; by right | | done].
      intros Hk'. apply Hr. apply list_elem_of_fmap. exists r'.
      split; [congruence | done].
    + intros r' Hr' Hk'. apply Hr. apply list_elem_of_fmap. exists r'.
      split; [congruence | done].
  - apply NoDup_cons. split.
    + intros (r' & Heq & Hr')%list_elem_of_fmap.
      apply update_row_elem_of in Hr' as [-> | [Hr' _]].
      * apply (Hother r); [apply elem_of_cons; by left | done | done].
      * apply Hc. apply list_elem_of_fmap. by exists r'.
    + apply IH; [done | done |].
      intros r' Hr'. apply Hother, elem_of_cons. by right.
Qed.

Lemma save_base_keeps_primary_key obj t obj' t' :
  NoDup (key <$> t) →
  save_base key set_key violates on_insert obj t = Ok (obj', t') →
  NoDup (key <$> t').
Proof.
  intros Hkeys Hsave. apply save_base_Ok in Hsave as [_ Hcase].
  destruct Hcase as [(k & Hk & _ & -> & ->) | [(k & Hk & Hno & -> & ->) |
                     (Hk & -> & ->)]].
  - by rewrite update_row_keys.
  - rewrite fmap_app. apply NoDup_app. split_and!; [done | | apply NoDup_singleton].
    intros x (r & -> & Hr)%list_elem_of_fmap Hx.
    apply list_elem_of_singleton in Hx. simpl in Hx.
    rewrite key_on_insert, Hk in Hx. apply Hno. apply Exists_exists. eauto.
  - rewrite fmap_app. apply NoDup_app. split_and!; [done | | apply NoDup_singleton].
    intros x (r & -> & Hr)%list_elem_of_fmap Hx.
    apply list_elem_of_singleton in Hx. simpl in Hx.
    rewrite key_on_insert, key_set_key in Hx.
    by apply (next_pk_fresh key t r).
Qed.

Lemma save_base_keeps_unique_column obj t obj' t' :
  NoDup (key <$> t) → NoDup (col <$> t) →
  save_base key set_key violates on_insert obj t = Ok (obj', t') →
  NoDup (col <$> t').
Proof.
  intros Hkeys Hcols Hsave. apply save_base_Ok in Hsave as [Hok Hcase].
  assert (∀ r, r ∈ t → ¬ refers_to (key r) (key obj) → col r ≠ col obj)
    as Hother.
  { intros r Hr Hne Heq. apply Hok, clash_violates, Exists_exists. eauto. }
  destruct Hcase as [(k & Hk & _ & -> & ->) | [(k & Hk & Hno & -> & ->) |
                     (Hk & -> & ->)]].
  - apply update_row_unique_column; [done..|].
    intros r Hr Hne. apply Hother; [done|].
    rewrite Hk. by intros [_ ?].
  - rewrite fmap_app. apply NoDup_app. split_and!; [done | | apply NoDup_singleton].
    intros x (r & -> & Hr)%list_elem_of_fmap Hx.
    apply list_elem_of_singleton in Hx. simpl in Hx.
    rewrite col_on_insert in Hx. apply (Hother r); [done | | done].
    rewrite Hk. intros [_ Hr']. apply Hno, Exists_exists. eauto.
  - rewrite fmap_app. apply NoDup_app. split_and!; [done | | apply NoDup_singleton].
    intros x (r & -> & Hr)%list_elem_of_fmap Hx.
    apply list_elem_of_singleton in Hx. simpl in Hx.
    rewrite col_on_insert, col_set_key in Hx. apply (Hother r); [done | | done].
    rewrite Hk. by intros [[? ?] _].
Qed.
End save_base_unique.

(** ** The membership table *)

Lemma MapGroupMember_save_run (m : MapGroupMember) (w : World) :
  MapGroupMember_save m w =
    match save_base member_pk set_member_pk MapGroupMember_violates
            (set_date_joined (clock w)) m (mapgroupmember (db w)) with
    | Ok (m', rows) => (Ok m', with_db (set_mapgroupmember rows (db w)) w)
    | Raise e => (Raise e, w)
    end.
Proof.
  unfold MapGroupMember_save, get_db, now, put_db, lift_result, mbind, M_bind,
    mret, M_ret.
  by destruct (save_base _ _ _ _ _ _) as [[m' rows]|e].
Qed.

Lemma member_save_base_ok (t : Z) (m m' : MapGroupMember)
    (rows rows' : list MapGroupMember) :
  NoDup (member_pk <$> rows) →
  NoDup ((λ r, (user r, map_group r)) <$> rows) →
  save_base member_pk set_member_pk MapGroupMember_violates
    (set_date_joined t) m rows = Ok (m', rows') →
  NoDup (member_pk <$> rows') ∧
  NoDup ((λ r, (user r, map_group r)) <$> rows').
Proof.
  intros Hkeys Hcols Hsave. split.
  - apply (save_base_keeps_primary_key member_pk set_member_pk
             MapGroupMember_violates (set_date_joined t))
      with (obj := m) (t := rows) (obj' := m'); done.
  - apply (save_base_keeps_unique_column member_pk set_member_pk
             (λ r, (user r, map_group r)) MapGroupMember_violates
             (set_date_joined t))
      with (obj := m) (t := rows) (obj' := m'); try done.
    intros obj rows0 Hclash. right. by right.
Qed.

Lemma MapGroupMember_save_members_ok (m : MapGroupMember) (w : World) :
  members_ok (db w) → members_ok (db (MapGroupMember_save m w).2).
Proof.
  intros [Hkeys Hcols]. rewrite MapGroupMember_save_run.
  destruct (save_base _ _ _ _ _ _) as [[m' rows]|e] eqn:Hsave; [|done].
  by apply member_save_base_ok in Hsave.
Qed.

Lemma create_members_ok (slugify : string → string) (name0 : string)
    (owner0 : User) (open : bool) (blurb0 : string) (w : World) :
  members_ok (db w) →
  members_ok (db (create slugify name0 owner0 open blurb0 w).2).
Proof.
  intros [Hkeys Hcols]. rewrite create_run. cbv zeta.
  destruct (save_base group_pk _ _ _ _ _) as [[pg groups]|e]; [|done].
  destruct (save_base pk _ _ _ _ _) as [[mg mapgroups]|e]; [|done].
  destruct (save_base member_pk _ _ _ _ _) as [[m' rows]|e] eqn:Hsave; [|done].
  by apply member_save_base_ok in Hsave.
Qed.

Lemma rename_members (slugify : string → string) (self : MapGroup)
    (new_name : string) (w : World) :
  mapgroupmember (db (rename slugify self new_name w).2)
    = mapgroupmember (db w).
Proof.
  rewrite rename_run. cbv zeta.
  destruct (save_base pk _ _ _ _ _) as [[self' mapgroups]|e]; [|done].
  destruct (queryset_get _) as [pg|e]; [|done].
  by destruct (save_base group_pk _ _ _ _ _) as [[pg' groups]|e].
Qed.

Lemma step_members_ok (slugify : string → string) (w w' : World) :
  step slugify w w' → members_ok (db w) → members_ok (db w').
Proof.
  intros Hstep Hok. destruct Hstep as [? ? ? ? w|self ? w|m w|w w' Heq].
  - by apply create_members_ok.
  - unfold members_ok, unique_together in *. by rewrite rename_members.
  - by apply MapGroupMember_save_members_ok.
  - unfold members_ok, unique_together in *. by rewrite Heq.
Qed.

Lemma reachable_members_ok (slugify : string → string) (w : World) :
  reachable slugify w → members_ok (db w).
Proof.
  induction 1 as [r t|w w' _ IH Hstep].
  - split; constructor.
  - by eapply step_members_ok.
Qed.

(** C8: in every store the module can produce there is at most one
    Membership per (user, group) pair; saving a new Membership for a pair
    that already has one raises IntegrityError (the spec's
    UniqueConstraintViolation) and leaves the world as it was. *)
Theorem membership_unique_per_pair (slugify : string → string) (w : World) :
  reachable slugify w →
  unique_together (db w) ∧
  ∀ m, member_pk m = None →
       (∃ m', m' ∈ mapgroupmember (db w) ∧
              user m' = user m ∧ map_group m' = map_group m) →
       MapGroupMember_save m w = (Raise IntegrityError, w).
Proof.
  intros Hreach. split; [by apply reachable_members_ok in Hreach as [_ ?]|].
  intros m Hnew (m' & Hin & Huser & Hgroup).
  rewrite MapGroupMember_save_run, save_base_violates; [done|].
  right. right. apply Exists_exists. exists m'. split; [done|]. split.
  - rewrite Hnew. by intros [[? ?] _].
  - by rewrite Huser, Hgroup.
Qed.

Lemma Sample_create_fish :
  create AsciiSlugify.slugify "Fish" Sample.alice false "anglers" Sample.w_empty
    = (Ok (Sample.g_fish, Sample.m_alice), Sample.w_fish).
Proof. by vm_compute. Qed.

Lemma Sample_reachable_fish : reachable AsciiSlugify.slugify Sample.w_fish.
Proof.
  eapply reachable_step; [apply reachable_empty|].
  pose proof (step_create AsciiSlugify.slugify "Fish" Sample.alice false
                "anglers" Sample.w_empty) as Hstep.
  by rewrite Sample_create_fish in Hstep.
Defined.

Lemma membership_unique_per_pair_witness :
  unique_together Sample.db_fish ∧
  MapGroupMember_save
    {| member_pk := None; user := Some 1; map_group := Some 1;
       date_joined := None; is_manager := false; show_real_name := true |}
    Sample.w_fish
  = (Raise IntegrityError, Sample.w_fish).
Proof.
  destruct (membership_unique_per_pair AsciiSlugify.slugify Sample.w_fish
              Sample_reachable_fish) as [Hunique Hsave].
  split; [exact Hunique|].
  apply Hsave; [reflexivity|].
  exists Sample.m_alice. split; [|split; reflexivity].
  apply elem_of_cons. by left.
Defined.

(** ** [MapGroupManager.create] *)

Lemma save_base_insert_Ok {R} (key : R → option nat) (set_key : nat → R → R)
    (violates : R → list R → Prop) `{∀ obj t, Decision (violates obj t)}
    (on_insert : R → R) (obj obj' : R) (t t' : list R) :
  key obj = None →
  save_base key set_key violates on_insert obj t = Ok (obj', t') →
  ¬ violates obj t ∧
  obj' = on_insert (set_key (next_pk key t) obj) ∧ t' = t ++ [obj'].
Proof.
  intros Hk Hsave. apply save_base_Ok in Hsave as [Hok Hcase].
  split; [done|]. destruct Hcase as [(k & Hk' & _) | [(k & Hk' & _) | [_ ?]]];
    [congruence | congruence | done].
Qed.

Lemma Group_violates_new (nm : string) (groups : list Group) :
  Group_violates {| group_pk := None; group_name := nm |} groups ↔
  ∃ p, p ∈ groups ∧ group_name p = nm.
Proof.
  unfold Group_violates, unique_clash. rewrite Exists_exists. simpl.
  split; intros (p & Hp & H); exists p; [tauto|].
  split; [done|]. split; [|done]. by intros [[? ?] _].
Qed.

(** The permission group that [create] is about to make is not yet linked to
    any map group, in a store with referential integrity. *)
Lemma MapGroup_violates_fresh (d : DB) (g : MapGroup) :
  referential_integrity d →
  is_Some (owner g) →
  permission_group g = Some (next_pk group_pk (auth_group d)) →
  ¬ MapGroup_violates g (mapgroup d).
Proof.
  intros [Hfk _] [o Ho] Hpg [Hv | [Hv | Hv]]; [congruence | congruence |].
  apply Exists_exists in Hv as (r & Hr & _ & Heq).
  unfold references in Hfk. rewrite Forall_forall in Hfk.
  apply Hfk, Exists_exists in Hr as (s & Hs & _ & Href).
  apply (next_pk_fresh group_pk (auth_group d) s Hs). congruence.
Qed.

Lemma MapGroupMember_violates_fresh (d : DB) (m : MapGroupMember) :
  referential_integrity d →
  is_Some (user m) →
  map_group m = Some (next_pk pk (mapgroup d)) →
  ¬ MapGroupMember_violates m (mapgroupmember d).
Proof.
  intros [_ Hfk] [o Ho] Hmg [Hv | [Hv | Hv]]; [congruence | congruence |].
  apply Exists_exists in Hv as (r & Hr & _ & Heq).
  unfold references in Hfk. rewrite Forall_forall in Hfk.
  apply Hfk, Exists_exists in Hr as (s & Hs & _ & Href).
  apply (next_pk_fresh pk (mapgroup d) s Hs).
  injection Heq as _ Heq. congruence.
Qed.


(** Without a collision, and in a store with referential integrity, [create]
    returns. *)
Lemma create_succeeds (slugify : string → string) (name0 : string)
    (owner0 : User) (open : bool) (blurb0 : string) (w : World) :
  referential_integrity (db w) →
  (∀ p, p ∈ auth_group (db w) → group_name p ≠ derived_name slugify name0 w) →
  ∃ mg member w',
    create slugify name0 owner0 open blurb0 w = (Ok (mg, member), w').
Proof.
  intros Hri Hfree. rewrite create_run. cbv zeta.
  rewrite save_base_insert;
    [|rewrite Group_violates_new; intros (p & Hp & Heq); by apply (Hfree p)|done].
  cbn [id set_group_pk group_pk].
  rewrite save_base_insert; [|by apply MapGroup_violates_fresh|done].
  cbn [id set_pk pk].
  rewrite save_base_insert; [|by apply MapGroupMember_violates_fresh|done].
  eauto.
Qed.


Lemma create_result (slugify : string → string) (name0 : string)
    (owner0 : User) (open : bool) (blurb0 : string) (w w' : World)
    (mg : MapGroup) (member : MapGroupMember) :
  create slugify name0 owner0 open blurb0 w = (Ok (mg, member), w') →
  is_Some (pk mg) ∧ name mg = name0 ∧ slug mg = slugify name0 ∧
  owner mg = Some (user_pk owner0) ∧ blurb mg = blurb0 ∧ is_open mg = open ∧
  member_pk member = Some (next_pk member_pk (mapgroupmember (db w))) ∧
  user member = Some (user_pk owner0) ∧ map_group member = pk mg ∧
  date_joined member = Some (clock w) ∧
  is_manager member = true ∧ show_real_name member = false ∧
  mapgroup (db w') = mapgroup (db w) ++ [mg] ∧
  mapgroupmember (db w') = mapgroupmember (db w) ++ [member].
Proof.
  rewrite create_run. cbv zeta. intros Hrun.
  destruct (save_base group_pk _ _ _ _ _) as [[pg groups]|?]; [|done].
  destruct (save_base pk _ _ _ _ _) as [[mg1 mapgroups]|?] eqn:Hmg; [|done].
  destruct (save_base member_pk _ _ _ _ _) as [[m1 members]|?] eqn:Hm; [|done].
  injection Hrun as -> -> <-.
  apply save_base_insert_Ok in Hmg as (_ & -> & ->); [|done].
  apply save_base_insert_Ok in Hm as (_ & -> & ->); [|done].
  simpl. split_and!; try done; by eexists.
Qed.

(** C6: when the store has referential integrity and the derived
    permission-group name is free, [create] returns; whenever it returns, the
    owner's Membership is in the table, it is the returned one and it has
    [is_manager = true], and [has_member] of the new group and the owner is
    true exactly when the owner is active. *)
Theorem create_owner_membership (slugify : string → string) (name0 : string)
    (owner0 : User) (open : bool) (blurb0 : string) (w : World) :
  (referential_integrity (db w) →
   (∀ p, p ∈ auth_group (db w) → group_name p ≠ derived_name slugify name0 w) →
   ∃ mg member w',
     create slugify name0 owner0 open blurb0 w = (Ok (mg, member), w')) ∧
  (∀ mg member w',
     create slugify name0 owner0 open blurb0 w = (Ok (mg, member), w') →
     is_manager member = true ∧
     mg ∈ mapgroup (db w') ∧
     member ∈ mapgroupmember (db w') ∧
     membership_of mg (Authenticated owner0) member ∧
     has_member mg (Authenticated owner0) (db w') = is_active owner0).
Proof.
  split; [apply create_succeeds|].
  intros mg member w' Hrun. apply create_result in Hrun
    as (Hpk & _ & _ & _ & _ & _ & _ & Huser & Hgroup & _ & Hman & _ & Hgs & Hms).
  assert (member ∈ mapgroupmember (db w')) as Hin.
  { rewrite Hms. apply elem_of_app. right. by apply list_elem_of_singleton. }
  assert (membership_of mg (Authenticated owner0) member) as Hof.
  { split; simpl; [by rewrite Huser | by rewrite Hgroup]. }
  split_and!; try done.
  - rewrite Hgs. apply elem_of_app. right. by apply list_elem_of_singleton.
  - destruct (is_active owner0) eqn:Hact.
    + apply has_member_active; eauto.
    + by apply has_member_inactive.
Qed.

Lemma create_owner_membership_witness :
  (∃ mg member w',
     create AsciiSlugify.slugify "Fish" Sample.alice false "anglers"
       Sample.w_empty = (Ok (mg, member), w')) ∧
  (is_manager Sample.m_alice = true ∧
   Sample.g_fish ∈ mapgroup Sample.db_fish ∧
   Sample.m_alice ∈ mapgroupmember Sample.db_fish ∧
   membership_of Sample.g_fish (Authenticated Sample.alice) Sample.m_alice ∧
   has_member Sample.g_fish (Authenticated Sample.alice) Sample.db_fish = true).
Proof.
  destruct (create_owner_membership AsciiSlugify.slugify "Fish" Sample.alice
              false "anglers" Sample.w_empty) as [Hreturns Hafter].
  split.
  - apply Hreturns.
    + split; constructor.
    + intros p Hp. by apply elem_of_nil in Hp.
  - apply (Hafter Sample.g_fish Sample.m_alice Sample.w_fish).
    by vm_compute.
Defined.

(** An owner who exists but is inactive: [create] returns, the Membership is
    written, and [has_member] is false. *)
Lemma create_inactive_owner_not_member :
  create AsciiSlugify.slugify "Bob's" Sample.bob false "" Sample.w_empty
    = (Ok (Sample.g_bob, Sample.m_bob), Sample.w_bob) ∧
  is_manager Sample.m_bob = true ∧
  Sample.m_bob ∈ mapgroupmember (db Sample.w_bob) ∧
  has_member Sample.g_bob (Authenticated Sample.bob) (db Sample.w_bob) = false.
Proof.
  split; [by vm_compute|]. split; [done|]. split; [|by vm_compute].
  apply elem_of_cons. by left.
Qed.

(** ** [MapGroup.rename] *)

Lemma NoDup_fmap_eq {A B} (f : A → B) (l : list A) (x y : A) :
  NoDup (f <$> l) → x ∈ l → y ∈ l → f x = f y → x = y.
Proof.
  intros Hnd (i & Hi)%list_elem_of_lookup (j & Hj)%list_elem_of_lookup Heq.
  assert (i = j) as ->; [|congruence].
  apply (NoDup_lookup (f <$> l) i j (f x)); [done |..];
    rewrite list_lookup_fmap; [by rewrite Hi | by rewrite Hj, Heq].
Qed.

Lemma queryset_get_Ok {A} (qs : list A) (a : A) :
  queryset_get qs = Ok a → qs = [a].
Proof. destruct qs as [|x [|y qs]]; simpl; congruence. Qed.

Section save_base_existing.
Context {R : Type} (key : R → option nat) (set_key : nat → R → R).
Context (violates : R → list R → Prop) `{∀ obj t, Decision (violates obj t)}.
Context (on_insert : R → R).


Lemma save_base_elem_of obj t obj' t' :
  save_base key set_key violates on_insert obj t = Ok (obj', t') →
  obj' ∈ t'.
Proof.
  intros Hsave. apply save_base_Ok in Hsave as [_ Hcase].
  destruct Hcase as [(k & Hk & Hrow & -> & ->) | [(k & _ & _ & -> & ->) |
                     (_ & -> & ->)]].
  - apply Exists_exists in Hrow as (r & Hr & Hkr).
    apply list_elem_of_fmap. exists r. split; [|done]. by case_decide.
  - apply elem_of_app. right. by apply list_elem_of_singleton.
  - apply elem_of_app. right. by apply list_elem_of_singleton.
Qed.
End save_base_existing.

(** [save] writes the fields of the object as they are; only an object
    without a primary key comes back changed, by that key. *)
Lemma MapGroup_save_base_fields (obj obj' : MapGroup) (t t' : list MapGroup) :
  save_base pk set_pk MapGroup_violates id obj t = Ok (obj', t') →
  name obj' = name obj ∧ slug obj' = slug obj ∧ owner obj' = owner obj ∧
  blurb obj' = blurb obj ∧ permission_group obj' = permission_group obj ∧
  is_open obj' = is_open obj ∧ (is_Some (pk obj) → obj' = obj).
Proof.
  intros Hsave. apply save_base_Ok in Hsave as [_ Hcase].
  destruct Hcase as [(k & Hk & _ & -> & _) | [(k & Hk & _ & -> & _) |
                     (Hk & -> & _)]]; try done.
  split_and!; try done. rewrite Hk. by intros [? ?].
Qed.

Lemma Group_save_base_fields (obj obj' : Group) (t t' : list Group) :
  save_base group_pk set_group_pk Group_violates id obj t = Ok (obj', t') →
  group_name obj' = group_name obj ∧ (is_Some (group_pk obj) → obj' = obj).
Proof.
  intros Hsave. apply save_base_Ok in Hsave as [_ Hcase].
  destruct Hcase as [(k & Hk & _ & -> & _) | [(k & Hk & _ & -> & _) |
                     (Hk & -> & _)]]; try done.
  split; [done|]. rewrite Hk. by intros [? ?].
Qed.

(** A [rename] that returns went through its three steps. *)
Lemma rename_Ok (slugify : string → string) (self self' : MapGroup)
    (new_name : string) (pg' : Group) (w w' : World) :
  rename slugify self new_name w = (Ok (self', pg'), w') →
  ∃ mapgroups pg groups,
    save_base pk set_pk MapGroup_violates id
      (set_slug (slugify new_name) (set_name new_name self))
      (mapgroup (db w)) = Ok (self', mapgroups) ∧
    queryset_get
      (filter (λ g, refers_to (permission_group self') (group_pk g))
         (auth_group (db w))) = Ok pg ∧
    save_base group_pk set_group_pk Group_violates id
      (set_group_name (derived_name slugify new_name w) pg)
      (auth_group (db w)) = Ok (pg', groups) ∧
    db w' = set_auth_group groups (set_mapgroup mapgroups (db w)).
Proof.
  rewrite rename_run. cbv zeta. intros Hrun.
  destruct (save_base pk _ _ _ _ _) as [[self1 mapgroups]|?] eqn:Hsave;
    [|done].
  pose proof (MapGroup_save_base_fields _ _ _ _ Hsave) as (Hname & _).
  simpl in Hname. rewrite Hname in Hrun. fold (derived_name slugify new_name w) in Hrun.
  destruct (queryset_get _) as [pg|?] eqn:Hget; [|done].
  destruct (save_base group_pk _ _ _ _ _) as [[pg1 groups]|?] eqn:Hpg; [|done].
  injection Hrun as -> -> <-. by exists mapgroups, pg, groups.
Qed.


(** C5: a [rename] that returns has set the group's name to the new name and
    its slug to the slug of the new name, in the object and in its row, and
    has set the name of the linked permission group to the slug cut to 72
    characters followed by the 8 characters drawn for this call.  That name
    equals the prior one exactly when the prior name is made of the same cut
    slug and the same 8 characters. *)
Theorem rename_sets_slug_and_permission_group_name (slugify : string → string)
    (self self' : MapGroup) (new_name : string) (pg' : Group) (w w' : World) :
  rename slugify self new_name w = (Ok (self', pg'), w') →
  name self' = new_name ∧ slug self' = slugify new_name ∧
  self' ∈ mapgroup (db w') ∧
  refers_to (permission_group self) (group_pk pg') ∧
  pg' ∈ auth_group (db w') ∧
  group_name pg' = derived_name slugify new_name w ∧
  ∀ p prefix0 suffix0,
    p ∈ auth_group (db w) →
    refers_to (permission_group self) (group_pk p) →
    group_name p = prefix0 +:+ suffix0 → String.length suffix0 = 8 →
    (group_name pg' = group_name p ↔
     prefix0 = slice_to (min 72 (String.length (slugify new_name)))
                 (slugify new_name) ∧
     suffix0 = (get_random_string 8 (rng w)).1).
Proof.
  intros (mapgroups & pg & groups & Hsave & Hget & Hpg & Hdb)%rename_Ok.
  pose proof (MapGroup_save_base_fields _ _ _ _ Hsave)
    as (Hname & Hslug & _ & _ & Hperm & _).
  pose proof (Group_save_base_fields _ _ _ _ Hpg) as [Hgname Hsame].
  simpl in *. apply queryset_get_Ok in Hget.
  assert (pg ∈ filter (λ g, refers_to (permission_group self') (group_pk g))
                 (auth_group (db w))) as Hin.
  { rewrite Hget. by apply list_elem_of_singleton. }
  apply list_elem_of_filter in Hin as [Href Hin]. rewrite Hperm in Href.
  rewrite (Hsame (proj1 Href)) in *. rewrite Hdb. simpl.
  split_and!; try done.
  - by eapply save_base_elem_of.
  - by eapply save_base_elem_of.
  - intros p prefix0 suffix0 _ _ Hp Hlen. rewrite Hp. unfold derived_name.
    pose proof (get_random_string_spec 8 (rng w)) as (Hlen8 & _).
    split.
    + intros Heq. apply string_app_inj_suffix in Heq as [<- <-]; [done|].
      by rewrite Hlen8.
    + by intros [-> ->].
Qed.

Lemma Sample_rename_fish :
  rename AsciiSlugify.slugify Sample.g_fish "FISH" Sample.w_fish
    = (Ok (set_name "FISH" Sample.g_fish, Sample.pg_fish),
       advance 8 (with_db (set_mapgroup [set_name "FISH" Sample.g_fish]
                             Sample.db_fish) Sample.w_fish)).
Proof. by vm_compute. Qed.

Lemma rename_sets_slug_and_permission_group_name_witness :
  name (set_name "FISH" Sample.g_fish) = "FISH" ∧
  slug (set_name "FISH" Sample.g_fish) = "fish" ∧
  group_name Sample.pg_fish
    = derived_name AsciiSlugify.slugify "FISH" Sample.w_fish.
Proof.
  destruct (rename_sets_slug_and_permission_group_name AsciiSlugify.slugify
              Sample.g_fish _ "FISH" _ Sample.w_fish _ Sample_rename_fish)
    as (Hname & Hslug & _ & _ & _ & Hpg & _).
  split_and!; [exact Hname | exact Hslug | exact Hpg].
Defined.

(** Renaming to a name with the same slug while the generator draws the same
    eight characters again: [rename] returns and the permission group keeps
    the name it had. *)
Lemma rename_may_keep_permission_group_name :
  ∃ self' pg' w',
    rename AsciiSlugify.slugify Sample.g_fish "FISH" Sample.w_fish
      = (Ok (self', pg'), w') ∧
    Sample.pg_fish ∈ auth_group (db Sample.w_fish) ∧
    refers_to (permission_group Sample.g_fish) (group_pk Sample.pg_fish) ∧
    group_name pg' = group_name Sample.pg_fish.
Proof.
  do 3 eexists. split; [apply Sample_rename_fish|].
  split_and!; [apply elem_of_cons; by left | by split | done].
Qed.

(** ** What [rename] leaves alone *)

(** The fields of a group that a rename must not touch. *)
Lemma update_row_Forall2 {R} (key : R → option nat) (P : R → R → Prop)
    (k : nat) (new : R) (t : list R) :
  (∀ r, r ∈ t → key r = Some k → P r new) →
  (∀ r, r ∈ t → key r ≠ Some k → P r r) →
  Forall2 P t (update_row key k new t).
Proof.
  intros Hnew Hold. unfold update_row. apply Forall2_fmap_r.
  apply Forall_Forall2_diag, Forall_forall. intros r Hr.
  unfold compose. case_decide; [by apply Hnew | by apply Hold].
Qed.




(** ** Failures part-way *)

Lemma Sample_create_collision :
  create AsciiSlugify.slugify "Fish" Sample.bob true "" Sample.w_fish
    = (Raise IntegrityError, advance 8 Sample.w_fish).
Proof. by vm_compute. Qed.





(** ** The featured views *)








(** With at most one FeaturedRank per group, the join keeps each group once. *)
Lemma featured_is_filter (d : DB) :
  NoDup (fg_map_group <$> featuredgroups d) →
  MapGroupFeaturedManager_get_queryset d = filter (has_rank d) (mapgroup d).
Proof.
  intros Hnd. unfold MapGroupFeaturedManager_get_queryset.
  induction (mapgroup d) as [|g l IH]; [done|].
  rewrite bind_cons, IH, filter_cons. clear IH.
  pose proof (filter_unique_column fg_map_group
                (λ f, refers_to (fg_map_group f) (pk g)) (pk g)
                (featuredgroups d) Hnd) as Hlen.
  unfold has_rank. case_decide as Hrank.
  - apply Exists_exists in Hrank as (f & Hf & Href).
    assert (f ∈ filter (λ f, refers_to (fg_map_group f) (pk g))
                  (featuredgroups d)) as Hin by by apply list_elem_of_filter.
    destruct (filter _ (featuredgroups d)) as [|f1 [|f2 fs]].
    + by apply elem_of_nil in Hin.
    + done.
    + simpl in Hlen. exfalso.
      assert (2 + length fs ≤ 1); [|lia]. apply Hlen. by intros f' [_ ?].
  - destruct (filter _ (featuredgroups d)) as [|f1 fs] eqn:Hfilter; [done|].
    exfalso. apply Hrank, Exists_exists. exists f1.
    assert (f1 ∈ filter (λ f, refers_to (fg_map_group f) (pk g))
                   (featuredgroups d)) as Hin
      by (rewrite Hfilter; apply elem_of_cons; by left).
    apply list_elem_of_filter in Hin as [? ?]. done.
Qed.

Lemma not_featured_is_filter (d : DB) :
  MapGroupNonFeaturedManager_get_queryset d
    = filter (λ g, ¬ has_rank d g) (mapgroup d).
Proof.
  unfold MapGroupNonFeaturedManager_get_queryset, has_rank.
  apply list_filter_iff. intros g.
  rewrite Forall_forall, Exists_exists. split.
  - intros Hall (f & Hf & Href). by apply (Hall f).
  - intros Hno f Hf Href. apply Hno. eauto.
Qed.




(** ** The recent-activity view *)

(** The filter of the view reads the clock nowhere: it keeps the records
    whose timestamp is at most the literal 7, at whatever time it is read. *)
Lemma recent_activity_elem_of (d : DB) (a : ActivityLog) :
  a ∈ RecentActivityManager_get_queryset d ↔
  (date_created a ≤ 7)%Z ∧ a ∈ activitylog d.
Proof.
  unfold RecentActivityManager_get_queryset. by rewrite list_elem_of_filter.
Qed.

(** Read at any time after 7, the view drops a record written at that very
    moment, which is inside every recency window. *)
Lemma recent_activity_drops_new_record (t window : Z) (a : ActivityLog)
    (d : DB) :
  (7 < t)%Z → (0 ≤ window)%Z → date_created a = t → a ∈ activitylog d →
  a ∈ within_window t window d ∧ a ∉ RecentActivityManager_get_queryset d.
Proof.
  intros Ht Hw Ha Hin. split.
  - unfold within_window, age. apply list_elem_of_filter. split; [lia | done].
  - rewrite recent_activity_elem_of. lia.
Qed.


(** ** The declared constraints hold in every store built through the module *)

Section save_base_table.
Context {R : Type} (key : R → option nat) (set_key : nat → R → R).
Context (violates : R → list R → Prop) `{∀ obj t, Decision (violates obj t)}.
Context (on_insert : R → R).
Hypothesis key_set_key : ∀ k r, key (set_key k r) = Some k.
Hypothesis key_on_insert : ∀ r, key (on_insert r) = key r.

Lemma save_base_rows obj t obj' t' r' :
  save_base key set_key violates on_insert obj t = Ok (obj', t') →
  r' ∈ t' → r' = obj' ∨ r' ∈ t.
Proof.
  intros Hsave Hr'. apply save_base_Ok in Hsave as [_ Hcase].
  destruct Hcase as [(k & Hk & _ & -> & ->) | [(k & _ & _ & -> & ->) |
                     (_ & -> & ->)]].
  - apply (update_row_elem_of key) in Hr' as [-> | [? _]]; [by left | by right].
  - apply elem_of_app in Hr' as [? | ->%list_elem_of_singleton];
      [by right | by left].
  - apply elem_of_app in Hr' as [? | ->%list_elem_of_singleton];
      [by right | by left].
Qed.

Lemma save_base_keys_kept obj t obj' t' r :
  save_base key set_key violates on_insert obj t = Ok (obj', t') →
  r ∈ t → ∃ r', r' ∈ t' ∧ key r' = key r.
Proof.
  intros Hsave Hr. apply save_base_Ok in Hsave as [_ Hcase].
  destruct Hcase as [(k & Hk & _ & -> & ->) | [(k & _ & _ & -> & ->) |
                     (_ & -> & ->)]].
  - exists (if decide (key r = Some k) then obj else r). split.
    + apply list_elem_of_fmap. by exists r.
    + case_decide; congruence.
  - exists r. split; [apply elem_of_app; by left | done].
  - exists r. split; [apply elem_of_app; by left | done].
Qed.

Lemma save_base_key_is_Some obj t obj' t' :
  save_base key set_key violates on_insert obj t = Ok (obj', t') →
  is_Some (key obj').
Proof.
  intros Hsave. apply save_base_Ok in Hsave as [_ Hcase].
  destruct Hcase as [(k & Hk & _ & -> & ->) | [(k & Hk & _ & -> & ->) |
                     (_ & -> & ->)]].
  - by exists k.
  - exists k. by rewrite key_on_insert.
  - eexists. by rewrite key_on_insert, key_set_key.
Qed.

Lemma save_base_keeps_table_key obj t obj' t' :
  primary_key key t →
  save_base key set_key violates on_insert obj t = Ok (obj', t') →
  primary_key key t'.
Proof.
  intros [Hnd Hsome] Hsave. split.
  - by apply (save_base_keeps_primary_key key set_key violates on_insert
                key_set_key key_on_insert obj t obj').
  - apply Forall_forall. intros r' Hr'.
    destruct (save_base_rows _ _ _ _ _ Hsave Hr') as [-> | Hr].
    + by eapply save_base_key_is_Some.
    + rewrite Forall_forall in Hsome. by apply Hsome.
Qed.
End save_base_table.

Lemma references_target_keys {R S} (fk : R → option nat) (key : S → option nat)
    (t : list R) (target target' : list S) :
  references fk key t target →
  (∀ s, s ∈ target → ∃ s', s' ∈ target' ∧ key s' = key s) →
  references fk key t target'.
Proof.
  unfold references. rewrite !Forall_forall. intros Href Hkeys r Hr.
  apply Href, Exists_exists in Hr as (s & Hs & Hrs).
  destruct (Hkeys s Hs) as (s' & Hs' & Heq).
  apply Exists_exists. exists s'. by rewrite Heq.
Qed.

Lemma references_new_row {R S} (fk : R → option nat) (key : S → option nat)
    (t t' : list R) (new : R) (target : list S) :
  references fk key t target →
  (∀ r', r' ∈ t' → r' = new ∨ r' ∈ t) →
  Exists (λ s, refers_to (fk new) (key s)) target →
  references fk key t' target.
Proof.
  unfold references. rewrite !Forall_forall. intros Href Hrows Hnew r' Hr'.
  destruct (Hrows r' Hr') as [-> | Hr]; [done | by apply Href].
Qed.

Lemma store_ok_empty (slugify : string → string) : store_ok slugify empty_db.
Proof.
  split; try (split; constructor); try constructor.
Qed.

(** Only the three tables count. *)
Lemma store_ok_frame (slugify : string → string) (d d' : DB) :
  auth_group d' = auth_group d → mapgroup d' = mapgroup d →
  mapgroupmember d' = mapgroupmember d →
  store_ok slugify d → store_ok slugify d'.
Proof.
  intros Hg Hm Hmm [? ? ? ? ? ? [? ?] ? ? ?].
  split; unfold unique_together, referential_integrity;
    rewrite ?Hg, ?Hm, ?Hmm; done.
Qed.

Lemma store_ok_Group_save (slugify : string → string) (d : DB)
    (g g' : Group) (groups : list Group) :
  store_ok slugify d →
  save_base group_pk set_group_pk Group_violates id g (auth_group d)
    = Ok (g', groups) →
  store_ok slugify (set_auth_group groups d).
Proof.
  intros [Hgpk ? ? Hname ? ? [Hperm ?] ? ? ?] Hsave. split; try done.
  - by apply (save_base_keeps_table_key group_pk set_group_pk Group_violates id)
      with (obj := g) (t := auth_group d) (obj' := g').
  - apply (save_base_keeps_unique_column group_pk set_group_pk group_name
             Group_violates id)
      with (obj := g) (t := auth_group d) (obj' := g'); try done.
    by destruct Hgpk.
  - split; [|done]. simpl.
    apply (references_target_keys _ _ _ (auth_group d)); [done|].
    intros s Hs.
    by apply (save_base_keys_kept group_pk set_group_pk Group_violates id
                g (auth_group d) g' groups).
Qed.

Lemma store_ok_MapGroup_save (slugify : string → string) (d : DB)
    (g g' : MapGroup) (mapgroups : list MapGroup) :
  store_ok slugify d →
  slug g = slugify (name g) →
  Exists (λ p, refers_to (permission_group g) (group_pk p)) (auth_group d) →
  save_base pk set_pk MapGroup_violates id g (mapgroup d)
    = Ok (g', mapgroups) →
  store_ok slugify (set_mapgroup mapgroups d).
Proof.
  intros [? Hpk ? ? Hlink ? [Hperm Hmem] Hslug Hown ?] Hg Hp Hsave.
  pose proof (MapGroup_save_base_fields _ _ _ _ Hsave)
    as (Hname' & Hslug' & Hown' & _ & Hperm' & _).
  assert (∀ r', r' ∈ mapgroups → r' = g' ∨ r' ∈ mapgroup d) as Hrows.
  { intros r'. by apply (save_base_rows pk set_pk MapGroup_violates id g). }
  split; try done.
  - by apply (save_base_keeps_table_key pk set_pk MapGroup_violates id)
      with (obj := g) (t := mapgroup d) (obj' := g').
  - apply (save_base_keeps_unique_column pk set_pk permission_group
             MapGroup_violates id)
      with (obj := g) (t := mapgroup d) (obj' := g'); try done.
    + intros obj t Hclash. right. by right.
    + by destruct Hpk.
  - split; simpl.
    + apply (references_new_row _ _ (mapgroup d) _ g'); [done | done |].
      by rewrite Hperm'.
    + apply (references_target_keys _ _ _ (mapgroup d)); [done|].
      intros s Hs.
      by apply (save_base_keys_kept pk set_pk MapGroup_violates id
                  g (mapgroup d) g' mapgroups).
  - simpl. apply Forall_forall. intros r' Hr'.
    destruct (Hrows r' Hr') as [-> | Hr].
    + by rewrite Hslug', Hname'.
    + rewrite Forall_forall in Hslug. by apply Hslug.
  - simpl. apply Forall_forall. intros r' Hr'.
    destruct (Hrows r' Hr') as [-> | Hr].
    + rewrite Hown'. apply save_base_Ok in Hsave as [Hok _].
      destruct (owner g) eqn:Ho; [by eexists|]. exfalso. apply Hok. by left.
    + rewrite Forall_forall in Hown. by apply Hown.
Qed.

Lemma MapGroupMember_save_base_fields (t : Z) (obj obj' : MapGroupMember)
    (rows rows' : list MapGroupMember) :
  save_base member_pk set_member_pk MapGroupMember_violates
    (set_date_joined t) obj rows = Ok (obj', rows') →
  user obj' = user obj ∧ map_group obj' = map_group obj ∧
  is_manager obj' = is_manager obj ∧
  show_real_name obj' = show_real_name obj.
Proof.
  intros Hsave. apply save_base_Ok in Hsave as [_ Hcase].
  by destruct Hcase as [(k & Hk & _ & -> & _) | [(k & Hk & _ & -> & _) |
                        (Hk & -> & _)]].
Qed.

Lemma store_ok_MapGroupMember_save (slugify : string → string) (d : DB)
    (t : Z) (m m' : MapGroupMember) (members : list MapGroupMember) :
  store_ok slugify d →
  Exists (λ g, refers_to (map_group m) (pk g)) (mapgroup d) →
  save_base member_pk set_member_pk MapGroupMember_violates
    (set_date_joined t) m (mapgroupmember d) = Ok (m', members) →
  store_ok slugify (set_mapgroupmember members d).
Proof.
  intros [? ? [Hmpk Hmsome] ? ? Hpair [Hperm Hmem] ? ? Huser] Hg Hsave.
  pose proof (MapGroupMember_save_base_fields _ _ _ _ _ Hsave)
    as (Huser' & Hgroup & _).
  assert (∀ r', r' ∈ members → r' = m' ∨ r' ∈ mapgroupmember d) as Hrows.
  { intros r'. by apply (save_base_rows member_pk set_member_pk
                           MapGroupMember_violates (set_date_joined t) m). }
  destruct (member_save_base_ok _ _ _ _ _ Hmpk Hpair Hsave) as [Hkeys Hpairs].
  split; try done.
  - by apply (save_base_keeps_table_key member_pk set_member_pk
                MapGroupMember_violates (set_date_joined t))
      with (obj := m) (t := mapgroupmember d) (obj' := m').
  - split; [done|]. simpl.
    apply (references_new_row _ _ (mapgroupmember d) _ m'); [done | done |].
    by rewrite Hgroup.
  - simpl. apply Forall_forall. intros r' Hr'.
    destruct (Hrows r' Hr') as [-> | Hr].
    + rewrite Huser'. apply save_base_Ok in Hsave as [Hok _].
      destruct (user m) eqn:Hu; [by eexists|]. exfalso. apply Hok. by left.
    + rewrite Forall_forall in Huser. by apply Huser.
Qed.

Lemma MapGroup_save_run (slugify : string → string) (g : MapGroup) (w : World) :
  MapGroup_save slugify g w =
    match save_base pk set_pk MapGroup_violates id
            (set_slug (slugify (name g)) g) (mapgroup (db w)) with
    | Ok (g', rows) => (Ok g', with_db (set_mapgroup rows (db w)) w)
    | Raise e => (Raise e, w)
    end.
Proof.
  unfold MapGroup_save, get_db, put_db, lift_result, mbind, M_bind, mret, M_ret.
  by destruct (save_base _ _ _ _ _ _) as [[g' rows]|e].
Qed.

Lemma ActivityLog_save_run (a : ActivityLog) (w : World) :
  ActivityLog_save a w =
    match save_base log_pk set_log_pk ActivityLog_violates
            (set_date_created (clock w)) a (activitylog (db w)) with
    | Ok (a', rows) => (Ok a', with_db (set_activitylog rows (db w)) w)
    | Raise e => (Raise e, w)
    end.
Proof.
  unfold ActivityLog_save, get_db, now, put_db, lift_result, mbind, M_bind,
    mret, M_ret.
  by destruct (save_base _ _ _ _ _ _) as [[a' rows]|e].
Qed.

Lemma create_store_ok (slugify : string → string) (name0 : string)
    (owner0 : User) (open : bool) (blurb0 : string) (w : World) :
  store_ok slugify (db w) →
  store_ok slugify (db (create slugify name0 owner0 open blurb0 w).2).
Proof.
  intros Hok. rewrite create_run. cbv zeta.
  destruct (save_base group_pk _ _ _ _ _) as [[pg groups]|?] eqn:Hpg; [|done].
  pose proof (store_ok_Group_save _ _ _ _ _ Hok Hpg) as Hok1.
  assert (pg ∈ groups) as Hin by by eapply save_base_elem_of.
  assert (is_Some (group_pk pg)) as Hpk
    by by apply (save_base_key_is_Some group_pk set_group_pk Group_violates id)
         in Hpg.
  set (d2 := set_sharing _ (set_auth_group groups (db w))).
  assert (store_ok slugify d2) as Hok2
    by exact (store_ok_frame slugify (set_auth_group groups (db w)) d2
                eq_refl eq_refl eq_refl Hok1).
  destruct (save_base pk _ _ _ _ _) as [[mg mapgroups]|?] eqn:Hmg; [|done].
  assert (store_ok slugify (set_mapgroup mapgroups d2)) as Hok3.
  { refine (store_ok_MapGroup_save slugify d2 _ _ _ Hok2 _ _ Hmg); [done|].
    apply Exists_exists. by exists pg. }
  assert (mg ∈ mapgroups) as Hmgin by by eapply save_base_elem_of.
  assert (is_Some (pk mg)) as Hmgpk
    by by apply (save_base_key_is_Some pk set_pk MapGroup_violates id) in Hmg.
  set (d4 := set_auth_user_groups _ (set_mapgroup mapgroups d2)).
  assert (store_ok slugify d4) as Hok4
    by exact (store_ok_frame slugify (set_mapgroup mapgroups d2) d4
                eq_refl eq_refl eq_refl Hok3).
  destruct (save_base member_pk _ _ _ _ _) as [[m members]|?] eqn:Hm; [|done].
  refine (store_ok_MapGroupMember_save slugify d4 _ _ _ _ Hok4 _ Hm).
  apply Exists_exists. by exists mg.
Qed.

Lemma rename_store_ok (slugify : string → string) (self : MapGroup)
    (new_name : string) (w : World) :
  store_ok slugify (db w) → self ∈ mapgroup (db w) →
  store_ok slugify (db (rename slugify self new_name w).2).
Proof.
  intros Hok Hself. rewrite rename_run. cbv zeta.
  destruct (save_base pk _ _ _ _ _) as [[self' mapgroups]|?] eqn:Hsave; [|done].
  assert (store_ok slugify (set_mapgroup mapgroups (db w))) as Hok1.
  { refine (store_ok_MapGroup_save slugify (db w) _ _ _ Hok _ _ Hsave);
      [done|].
    destruct Hok as [_ _ _ _ _ _ [Href _] _ _ _].
    unfold references in Href. rewrite Forall_forall in Href.
    exact (Href self Hself). }
  destruct (queryset_get _) as [pg|?]; [|done].
  destruct (save_base group_pk _ _ _ _ _) as [[pg' groups]|?] eqn:Hpg; [|done].
  exact (store_ok_Group_save slugify _ _ _ _ Hok1 Hpg).
Qed.

Lemma edit_store_ok (slugify : string → string) (self : MapGroup)
    (blurb0 : string) (open : bool) (w : World) :
  store_ok slugify (db w) → self ∈ mapgroup (db w) →
  store_ok slugify
    (db (MapGroup_save slugify
           {| pk := pk self; name := name self; slug := slug self;
              owner := owner self; blurb := blurb0;
              permission_group := permission_group self;
              is_open := open |} w).2).
Proof.
  intros Hok Hself. rewrite MapGroup_save_run.
  destruct (save_base pk _ _ _ _ _) as [[self' mapgroups]|?] eqn:Hsave; [|done].
  refine (store_ok_MapGroup_save slugify (db w) _ _ _ Hok _ _ Hsave); [done|].
  destruct Hok as [_ _ _ _ _ _ [Href _] _ _ _].
  unfold references in Href. rewrite Forall_forall in Href.
  exact (Href self Hself).
Qed.

Lemma api_step_store_ok (slugify : string → string) (w w' : World) :
  api_step slugify w w' → store_ok slugify (db w) → store_ok slugify (db w').
Proof.
  intros Hstep Hok.
  destruct Hstep as [? ? ? ? w|self ? w Hself|self ? ? w Hself|m w Hg|a w|w r t].
  - by apply create_store_ok.
  - by apply rename_store_ok.
  - by apply edit_store_ok.
  - rewrite MapGroupMember_save_run.
    destruct (save_base _ _ _ _ _ _) as [[m' rows]|?] eqn:Hsave; [|done].
    refine (store_ok_MapGroupMember_save slugify (db w) _ _ _ _ Hok _ Hsave).
    apply Exists_exists. destruct Hg as (g & ? & ?). by exists g.
  - rewrite ActivityLog_save_run.
    destruct (save_base _ _ _ _ _ _) as [[a' rows]|?]; [|done].
    exact (store_ok_frame slugify (db w) (set_activitylog rows (db w))
             eq_refl eq_refl eq_refl Hok).
  - done.
Qed.

Lemma api_reachable_store_ok (slugify : string → string) (w : World) :
  api_reachable slugify w → store_ok slugify (db w).
Proof.
  induction 1 as [r t|w w' _ IH Hstep].
  - apply store_ok_empty.
  - by eapply api_step_store_ok.
Qed.

Lemma Sample_api_reachable_fish :
  api_reachable AsciiSlugify.slugify Sample.w_fish.
Proof.
  eapply api_reachable_step; [apply api_reachable_empty|].
  pose proof (api_create AsciiSlugify.slugify "Fish" Sample.alice false
                "anglers" Sample.w_empty) as Hstep.
  by rewrite Sample_create_fish in Hstep.
Defined.

Lemma Sample_create_new :
  create AsciiSlugify.slugify "New Name" Sample.alice false "" Sample.w_fish
    = (Ok (Sample.g_new, Sample.m_alice2), Sample.w_two).
Proof. by vm_compute. Qed.

Lemma Sample_api_reachable_two :
  api_reachable AsciiSlugify.slugify Sample.w_two.
Proof.
  eapply api_reachable_step; [apply Sample_api_reachable_fish|].
  pose proof (api_create AsciiSlugify.slugify "New Name" Sample.alice false
                "" Sample.w_fish) as Hstep.
  by rewrite Sample_create_new in Hstep.
Defined.

(** X1: every store built from the empty one through [create], [rename] and
    edits of stored groups, saves of Memberships of stored groups and
    activity records has its primary keys present and distinct, and every
    group points at a stored permission group and every Membership at a
    stored group. *)
Theorem api_store_well_formed (slugify : string → string) (w : World) :
  api_reachable slugify w →
  primary_key group_pk (auth_group (db w)) ∧
  primary_key pk (mapgroup (db w)) ∧
  primary_key member_pk (mapgroupmember (db w)) ∧
  referential_integrity (db w).
Proof. by intros [? ? ? _ _ _ ? _ _ _]%api_reachable_store_ok. Qed.

Lemma api_store_well_formed_witness :
  primary_key group_pk (auth_group Sample.db_two) ∧
  primary_key pk (mapgroup Sample.db_two) ∧
  primary_key member_pk (mapgroupmember Sample.db_two) ∧
  referential_integrity Sample.db_two.
Proof.
  exact (api_store_well_formed AsciiSlugify.slugify Sample.w_two
           Sample_api_reachable_two).
Defined.

(** X2: in every such store two different map groups are linked to two
    different permission groups, and these have different names. *)
Theorem api_permission_groups_distinct (slugify : string → string) (w : World) :
  api_reachable slugify w →
  ∀ g1 g2 p1 p2,
    g1 ∈ mapgroup (db w) → g2 ∈ mapgroup (db w) →
    p1 ∈ auth_group (db w) → p2 ∈ auth_group (db w) →
    refers_to (permission_group g1) (group_pk p1) →
    refers_to (permission_group g2) (group_pk p2) →
    g1 ≠ g2 →
    permission_group g1 ≠ permission_group g2 ∧
    group_name p1 ≠ group_name p2.
Proof.
  intros [[Hgpk _] _ _ Hnames Hlink _ _ _ _ _]%api_reachable_store_ok.
  intros g1 g2 p1 p2 Hg1 Hg2 Hp1 Hp2 [_ Hr1] [_ Hr2] Hne.
  assert (permission_group g1 ≠ permission_group g2) as Hperm.
  { intros Heq. apply Hne.
    by apply (NoDup_fmap_eq permission_group (mapgroup (db w))). }
  split; [done|]. intros Heq. apply Hperm.
  assert (p1 = p2) as <-
    by by apply (NoDup_fmap_eq group_name (auth_group (db w))).
  congruence.
Qed.

Lemma api_permission_groups_distinct_witness :
  permission_group Sample.g_fish ≠ permission_group Sample.g_new ∧
  group_name Sample.pg_fish ≠ group_name Sample.pg_new.
Proof.
  apply (api_permission_groups_distinct AsciiSlugify.slugify Sample.w_two
           Sample_api_reachable_two Sample.g_fish Sample.g_new
           Sample.pg_fish Sample.pg_new).
  - apply elem_of_cons. by left.
  - apply elem_of_cons. right. apply elem_of_cons. by left.
  - apply elem_of_cons. by left.
  - apply elem_of_cons. right. apply elem_of_cons. by left.
  - by split.
  - by split.
  - discriminate.
Defined.

(** X3: in every such store the slug of each group is the slug of its
    name: [save] recomputes it at every write. *)
Theorem api_slug_follows_name (slugify : string → string) (w : World) :
  api_reachable slugify w →
  ∀ g, g ∈ mapgroup (db w) → slug g = slugify (name g).
Proof.
  intros [_ _ _ _ _ _ _ Hslug _ _]%api_reachable_store_ok g Hg.
  rewrite Forall_forall in Hslug. by apply Hslug.
Qed.

Lemma api_slug_follows_name_witness :
  slug Sample.g_new = AsciiSlugify.slugify (name Sample.g_new).
Proof.
  apply (api_slug_follows_name AsciiSlugify.slugify Sample.w_two
           Sample_api_reachable_two).
  apply elem_of_cons. right. apply elem_of_cons. by left.
Defined.



(** ** What [create] builds *)

(** Everything a returning [create] has written. *)
Lemma create_writes (slugify : string → string) (name0 : string)
    (owner0 : User) (open : bool) (blurb0 : string) (w w' : World)
    (mg : MapGroup) (member : MapGroupMember) :
  create slugify name0 owner0 open blurb0 w = (Ok (mg, member), w') →
  let k := next_pk group_pk (auth_group (db w)) in
  let pg := {| group_pk := Some k;
               group_name := derived_name slugify name0 w |} in
  (∀ p, p ∈ auth_group (db w) → group_name p ≠ derived_name slugify name0 w) ∧
  pk mg = Some (next_pk pk (mapgroup (db w))) ∧
  permission_group mg = Some k ∧
  auth_group (db w') = auth_group (db w) ++ [pg] ∧
  sharing (db w') = sharing (db w) ++ [k] ∧
  auth_user_groups (db w')
    = m2m_add (user_pk owner0, k) (auth_user_groups (db w)) ∧
  mapgroup (db w') = mapgroup (db w) ++ [mg] ∧
  mapgroupmember (db w') = mapgroupmember (db w) ++ [member] ∧
  featuredgroups (db w') = featuredgroups (db w) ∧
  activitylog (db w') = activitylog (db w) ∧
  rng w' = rng (advance 8 w) ∧ clock w' = clock w.
Proof.
  rewrite create_run. cbv zeta. intros Hrun.
  fold (derived_name slugify name0 w) in Hrun.
  destruct (save_base group_pk _ _ _ _ _) as [[pg groups]|?] eqn:Hpg; [|done].
  apply save_base_insert_Ok in Hpg as (Hfree & -> & ->); [|done].
  cbn [id set_group_pk group_pk group_name option_list] in Hrun.
  destruct (save_base pk _ _ _ _ _) as [[mg1 mapgroups]|?] eqn:Hmg; [|done].
  apply save_base_insert_Ok in Hmg as (_ & -> & ->); [|done].
  destruct (save_base member_pk _ _ _ _ _) as [[m1 members]|?] eqn:Hm; [|done].
  apply save_base_insert_Ok in Hm as (_ & -> & ->); [|done].
  injection Hrun as <- <- <-. split_and!; try done.
  intros p Hp Heq. apply Hfree, Group_violates_new. eauto.
Qed.

Lemma m2m_add_elem_of (pair pair' : nat * nat) (t : list (nat * nat)) :
  pair' ∈ m2m_add pair t ↔ pair' ∈ t ∨ pair' = pair.
Proof.
  unfold m2m_add. case_decide as Hin.
  - split; [by left | intros [? | ->]; done].
  - rewrite elem_of_app, list_elem_of_singleton. done.
Qed.

(** X5: a [create] that returns has made one new permission group, under a
    primary key and a name that no stored permission group had; the new map
    group is linked to it, it has been passed to [enable_sharing] once, and
    the owner has been added to it. *)
Theorem create_permission_group (slugify : string → string) (name0 : string)
    (owner0 : User) (open : bool) (blurb0 : string) (w w' : World)
    (mg : MapGroup) (member : MapGroupMember) :
  create slugify name0 owner0 open blurb0 w = (Ok (mg, member), w') →
  ∃ k,
    permission_group mg = Some k ∧
    auth_group (db w')
      = auth_group (db w)
        ++ [{| group_pk := Some k;
               group_name := derived_name slugify name0 w |}] ∧
    (∀ p, p ∈ auth_group (db w) →
          group_pk p ≠ Some k ∧
          group_name p ≠ derived_name slugify name0 w) ∧
    sharing (db w') = sharing (db w) ++ [k] ∧
    (user_pk owner0, k) ∈ auth_user_groups (db w').
Proof.
  intros (Hfree & _ & Hperm & Hgroups & Hsharing & Hadd & _)%create_writes.
  eexists. split_and!; [done | done | | done |].
  - intros p Hp. split; [by apply next_pk_fresh | by apply Hfree].
  - rewrite Hadd. apply m2m_add_elem_of. by right.
Qed.

Lemma create_permission_group_witness :
  ∃ k,
    permission_group Sample.g_new = Some k ∧
    auth_group (db Sample.w_two)
      = auth_group (db Sample.w_fish)
        ++ [{| group_pk := Some k;
               group_name := derived_name AsciiSlugify.slugify "New Name"
                               Sample.w_fish |}] ∧
    (∀ p, p ∈ auth_group (db Sample.w_fish) →
          group_pk p ≠ Some k ∧
          group_name p
            ≠ derived_name AsciiSlugify.slugify "New Name" Sample.w_fish) ∧
    sharing (db Sample.w_two) = sharing (db Sample.w_fish) ++ [k] ∧
    (user_pk Sample.alice, k) ∈ auth_user_groups (db Sample.w_two).
Proof.
  exact (create_permission_group AsciiSlugify.slugify "New Name" Sample.alice
           false "" Sample.w_fish Sample.w_two Sample.g_new Sample.m_alice2
           Sample_create_new).
Defined.

(** X6: a [create] that returns only adds: the rows that the permission
    groups, the map groups and the Memberships had are still there, in
    place, each table with one more row at its end; no user-group pair is
    lost; featured ranks and activity records are untouched; the generator
    has made 8 draws and the clock has not been moved. *)
Theorem create_appends_only (slugify : string → string) (name0 : string)
    (owner0 : User) (open : bool) (blurb0 : string) (w w' : World)
    (mg : MapGroup) (member : MapGroupMember) :
  create slugify name0 owner0 open blurb0 w = (Ok (mg, member), w') →
  (∃ pg, auth_group (db w') = auth_group (db w) ++ [pg]) ∧
  mapgroup (db w') = mapgroup (db w) ++ [mg] ∧
  mapgroupmember (db w') = mapgroupmember (db w) ++ [member] ∧
  (∀ pair, pair ∈ auth_user_groups (db w) →
           pair ∈ auth_user_groups (db w')) ∧
  featuredgroups (db w') = featuredgroups (db w) ∧
  activitylog (db w') = activitylog (db w) ∧
  pos (rng w') = pos (rng w) + 8 ∧ draws (rng w') = draws (rng w) ∧
  clock w' = clock w.
Proof.
  intros (_ & _ & _ & Hgroups & _ & Hadd & Hmg & Hm & Hf & Ha & Hrng & Hclock)
    %create_writes.
  split_and!; try done.
  - eauto.
  - intros pair Hpair. rewrite Hadd. apply m2m_add_elem_of. by left.
  - by rewrite Hrng.
  - by rewrite Hrng.
Qed.

Lemma create_appends_only_witness :
  (∃ pg, auth_group (db Sample.w_two) = auth_group (db Sample.w_fish) ++ [pg]) ∧
  mapgroup (db Sample.w_two) = mapgroup (db Sample.w_fish) ++ [Sample.g_new] ∧
  mapgroupmember (db Sample.w_two)
    = mapgroupmember (db Sample.w_fish) ++ [Sample.m_alice2].
Proof.
  destruct (create_appends_only AsciiSlugify.slugify "New Name" Sample.alice
              false "" Sample.w_fish Sample.w_two Sample.g_new
              Sample.m_alice2 Sample_create_new) as (Hpg & Hmg & Hm & _).
  split; [exact Hpg | split; [exact Hmg | exact Hm]].
Defined.

Lemma filter_none {A} (P : A → Prop) `{∀ x, Decision (P x)} (l : list A) :
  (∀ x, x ∈ l → ¬ P x) → filter P l = [].
Proof.
  intros Hno. induction l as [|x l IH]; [done|].
  rewrite filter_cons, decide_False.
  - apply IH. intros y Hy. apply Hno, elem_of_cons. by right.
  - apply Hno, elem_of_cons. by left.
Qed.

(** X7: in a store with referential integrity a [create] that returns makes
    the owner the only member of the new group: for every user other than
    the owner, [has_member] is false and [get_member] is None. *)
Theorem create_owner_only_member (slugify : string → string) (name0 : string)
    (owner0 : User) (open : bool) (blurb0 : string) (w w' : World)
    (mg : MapGroup) (member : MapGroupMember) (user0 : AnyUser) :
  referential_integrity (db w) →
  create slugify name0 owner0 open blurb0 w = (Ok (mg, member), w') →
  any_pk user0 ≠ Some (user_pk owner0) →
  has_member mg user0 (db w') = false ∧
  get_member mg user0 (db w') = Ok None.
Proof.
  intros [_ Hfk] Hrun Hother.
  pose proof (create_result _ _ _ _ _ _ _ _ _ Hrun)
    as (_ & _ & _ & _ & _ & _ & _ & Huser & _).
  apply create_writes in Hrun as (_ & Hpk & _ & _ & _ & _ & _ & Hm & _).
  assert (filter_user user0 (mapgroupmember_set mg (db w')) = []) as Hnone.
  { unfold filter_user, mapgroupmember_set. rewrite Hm, !filter_app.
    rewrite (filter_cons _ member), filter_nil.
    replace (filter (λ m, refers_to (map_group m) (pk mg))
               (mapgroupmember (db w))) with (@nil MapGroupMember).
    - case_decide; [|done]. rewrite filter_cons, filter_nil.
      case_decide as Hu; [|done]. destruct Hu as [_ Hu]. congruence.
    - symmetry. apply filter_none.
      intros m Hin [_ Href]. unfold references in Hfk.
      rewrite Forall_forall in Hfk.
      apply Hfk, Exists_exists in Hin as (g & Hg & _ & Hmg).
      apply (next_pk_fresh pk (mapgroup (db w)) g Hg). congruence. }
  unfold has_member, get_member. rewrite Hnone.
  by destruct (is_anonymous user0 || negb (any_is_active user0)).
Qed.

Lemma create_owner_only_member_witness :
  has_member Sample.g_new (Authenticated Sample.bob) (db Sample.w_two) = false ∧
  get_member Sample.g_new (Authenticated Sample.bob) (db Sample.w_two)
    = Ok None.
Proof.
  apply (create_owner_only_member AsciiSlugify.slugify "New Name" Sample.alice
           false "" Sample.w_fish Sample.w_two Sample.g_new Sample.m_alice2).
  - split; repeat constructor; by eexists.
  - apply Sample_create_new.
  - discriminate.
Defined.

(** X8: creating two groups under the same display name gives two groups
    with the same slug, two different primary keys, and two different
    permission groups with different names. *)
Theorem create_twice_same_name (slugify : string → string) (name0 : string)
    (owner1 owner2 : User) (open1 open2 : bool) (blurb1 blurb2 : string)
    (w w1 w2 : World) (mg1 mg2 : MapGroup) (m1 m2 : MapGroupMember) :
  create slugify name0 owner1 open1 blurb1 w = (Ok (mg1, m1), w1) →
  create slugify name0 owner2 open2 blurb2 w1 = (Ok (mg2, m2), w2) →
  slug mg1 = slug mg2 ∧
  pk mg1 ≠ pk mg2 ∧
  permission_group mg1 ≠ permission_group mg2 ∧
  derived_name slugify name0 w ≠ derived_name slugify name0 w1.
Proof.
  intros Hrun1 Hrun2.
  pose proof (create_result _ _ _ _ _ _ _ _ _ Hrun1) as (_ & _ & Hslug1 & _).
  pose proof (create_result _ _ _ _ _ _ _ _ _ Hrun2) as (_ & _ & Hslug2 & _).
  apply create_writes in Hrun1
    as (_ & _ & Hperm1 & Hgroups1 & _ & _ & Hmg1 & _).
  apply create_writes in Hrun2 as (Hfree2 & Hpk2 & Hperm2 & _).
  split_and!.
  - by rewrite Hslug1, Hslug2.
  - rewrite Hpk2. apply next_pk_fresh. rewrite Hmg1.
    apply elem_of_app. right. by apply list_elem_of_singleton.
  - rewrite Hperm1, Hperm2. rewrite Hgroups1.
    set (pg1 := Build_Group _ _).
    apply (next_pk_fresh group_pk (auth_group (db w) ++ [pg1]) pg1).
    apply elem_of_app. right. by apply list_elem_of_singleton.
  - set (pg1 := {| group_pk := Some (next_pk group_pk (auth_group (db w)));
                   group_name := derived_name slugify name0 w |}).
    apply (Hfree2 pg1). rewrite Hgroups1.
    apply elem_of_app. right. by apply list_elem_of_singleton.
Qed.

Lemma Sample_create_second_fish :
  ∃ mg m w',
    create AsciiSlugify.slugify "Fish" Sample.alice true "more anglers"
      {| db := Sample.db_fish;
         rng := {| draws := λ n, n - 8; pos := 8 |};
         clock := 1700000000 |}
    = (Ok (mg, m), w').
Proof. do 3 eexists. by vm_compute. Qed.

Lemma create_twice_same_name_witness :
  ∃ mg2,
    slug Sample.g_fish = slug mg2 ∧ pk Sample.g_fish ≠ pk mg2 ∧
    permission_group Sample.g_fish ≠ permission_group mg2.
Proof.
  destruct Sample_create_second_fish as (mg2 & m2 & w2 & Hsecond).
  exists mg2.
  destruct (create_twice_same_name AsciiSlugify.slugify "Fish"
              Sample.alice Sample.alice false true "anglers" "more anglers"
              {| db := empty_db;
                 rng := {| draws := λ n, n - 8; pos := 0 |};
                 clock := 1700000000 |}
              {| db := Sample.db_fish;
                 rng := {| draws := λ n, n - 8; pos := 8 |};
                 clock := 1700000000 |}
              w2 Sample.g_fish mg2 Sample.m_alice m2)
    as (Hslug & Hpk & Hperm & _).
  - by vm_compute.
  - exact Hsecond.
  - split; [exact Hslug | split; [exact Hpk | exact Hperm]].
Defined.

(** ** More on the membership lookups *)

(** The lookups read the primary key of the group and the membership table,
    nothing else. *)
Lemma member_lookups_ext (self self' : MapGroup) (user0 : AnyUser)
    (d d' : DB) :
  pk self' = pk self → mapgroupmember d' = mapgroupmember d →
  has_member self' user0 d' = has_member self user0 d ∧
  get_member self' user0 d' = get_member self user0 d.
Proof.
  intros Hpk Hm. unfold has_member, get_member, mapgroupmember_set.
  by rewrite Hpk, Hm.
Qed.

(** X9: renaming a group that has a primary key changes no answer of
    [has_member] and [get_member], whether [rename] returns or raises; the
    renamed object gives the same answers as the one before. *)
Theorem rename_keeps_member_lookups (slugify : string → string)
    (self : MapGroup) (new_name : string) (user0 : AnyUser) (w : World) :
  is_Some (pk self) →
  let w' := (rename slugify self new_name w).2 in
  has_member self user0 (db w') = has_member self user0 (db w) ∧
  get_member self user0 (db w') = get_member self user0 (db w) ∧
  ∀ self' pg',
    (rename slugify self new_name w).1 = Ok (self', pg') →
    has_member self' user0 (db w') = has_member self user0 (db w) ∧
    get_member self' user0 (db w') = get_member self user0 (db w).
Proof.
  intros Hpk w'.
  pose proof (rename_members slugify self new_name w) as Hm. fold w' in Hm.
  destruct (member_lookups_ext self self user0 (db w) (db w') eq_refl Hm)
    as [Hhas Hget].
  split_and!; [done | done |].
  intros self' pg' Hrun. apply member_lookups_ext; [|done].
  destruct (rename slugify self new_name w) as [r w0] eqn:Hrename.
  simpl in Hrun. subst r.
  apply rename_Ok in Hrename as (mapgroups & _ & _ & Hsave & _).
  apply MapGroup_save_base_fields in Hsave as (_ & _ & _ & _ & _ & _ & Hsame).
  by rewrite (Hsame Hpk).
Qed.

Lemma rename_keeps_member_lookups_witness :
  has_member Sample.g_fish (Authenticated Sample.alice)
    (db (rename AsciiSlugify.slugify Sample.g_fish "New Name" Sample.w_two).2)
  = has_member Sample.g_fish (Authenticated Sample.alice) (db Sample.w_two).
Proof.
  apply (rename_keeps_member_lookups AsciiSlugify.slugify Sample.g_fish
           "New Name" (Authenticated Sample.alice) Sample.w_two).
  by eexists.
Defined.

(** X10: [get_member] never lets DoesNotExist out; it raises
    MultipleObjectsReturned exactly when the user is active and not anonymous
    and the table holds more than one Membership for the pair; and a
    Membership it returns is a row of the table for that user and group. *)
Theorem get_member_outcomes (self : MapGroup) (user0 : AnyUser) (d : DB) :
  let rows := filter_user user0 (mapgroupmember_set self d) in
  let guarded := is_anonymous user0 || negb (any_is_active user0) in
  get_member self user0 d ≠ Raise DoesNotExist ∧
  get_member self user0 d ≠ Raise IntegrityError ∧
  (get_member self user0 d = Raise MultipleObjectsReturned ↔
   guarded = false ∧ 2 ≤ length rows) ∧
  (get_member self user0 d = Ok None ↔ guarded = true ∨ rows = []) ∧
  ∀ m, get_member self user0 d = Ok (Some m) →
       guarded = false ∧ rows = [m] ∧
       m ∈ mapgroupmember d ∧ membership_of self user0 m.
Proof.
  intros rows guarded. unfold get_member. fold guarded. fold rows.
  destruct guarded.
  - split_and!; try done.
    + split; [done | by intros [? _]].
    + split; [by left | done].
  - destruct rows as [|m [|m' l]] eqn:Hrows; simpl.
    + split_and!; try done.
      * split; [done | intros [_ ?]; lia].
      * split; [by right | done].
    + split_and!; try done.
      * split; [done | intros [_ ?]; lia].
      * split; [done | by intros [? | ?]].
      * intros m0 [= <-]. split_and!; try done;
          (assert (m ∈ filter_user user0 (mapgroupmember_set self d)) as Hin
             by (fold rows; rewrite Hrows; apply elem_of_cons; by left);
           by apply filter_user_elem_of in Hin as [? ?]).
    + split_and!; try done.
      * split; [intros _; split; [done | lia] | done].
      * split; [done | by intros [? | ?]].
Qed.

Lemma get_member_outcomes_witness :
  Sample.m_alice ∈ mapgroupmember Sample.db_fish ∧
  membership_of Sample.g_fish (Authenticated Sample.alice) Sample.m_alice.
Proof.
  destruct (get_member_outcomes Sample.g_fish (Authenticated Sample.alice)
              Sample.db_fish) as (_ & _ & _ & _ & Hrow).
  destruct (Hrow Sample.m_alice) as (_ & _ & Hin & Hof); [reflexivity|].
  split; [exact Hin | exact Hof].
Defined.

(** X11: saving a new Membership of an active user who is not yet a member
    of the group returns; the row it writes carries the time of the clock as
    its join date, and from then on [get_member] returns that row and
    [has_member] is true. *)
Theorem join_then_lookup (self : MapGroup) (u : User) (m : MapGroupMember)
    (w : World) :
  is_active u = true → is_Some (pk self) →
  member_pk m = None →
  user m = Some (user_pk u) → map_group m = pk self →
  has_member self (Authenticated u) (db w) = false →
  ∃ m' w',
    MapGroupMember_save m w = (Ok m', w') ∧
    date_joined m' = Some (clock w) ∧
    is_manager m' = is_manager m ∧ show_real_name m' = show_real_name m ∧
    mapgroupmember (db w') = mapgroupmember (db w) ++ [m'] ∧
    get_member self (Authenticated u) (db w') = Ok (Some m') ∧
    has_member self (Authenticated u) (db w') = true.
Proof.
  intros Hact [k Hk] Hnew Huser Hgroup Hnot.
  assert (filter_user (Authenticated u) (mapgroupmember_set self (db w)) = [])
    as Hnone.
  { unfold has_member in Hnot. simpl in Hnot. rewrite Hact in Hnot.
    simpl in Hnot. by destruct (filter_user _ _). }
  assert (¬ MapGroupMember_violates m (mapgroupmember (db w))) as Hok.
  { intros [Hv | [Hv | Hv]]; [congruence | congruence |].
    apply Exists_exists in Hv as (r & Hr & _ & Heq).
    injection Heq as Hru Hrg.
    assert (r ∈ filter_user (Authenticated u)
                  (mapgroupmember_set self (db w))) as Hin.
    { apply filter_user_elem_of. split; [done|].
      split; simpl; [split; [by eexists | congruence]
                    | split; [by eexists | congruence]]. }
    rewrite Hnone in Hin. by apply elem_of_nil in Hin. }
  rewrite MapGroupMember_save_run, save_base_insert by done.
  set (m' := set_date_joined (clock w) (set_member_pk _ m)).
  exists m', (with_db (set_mapgroupmember (mapgroupmember (db w) ++ [m'])
                         (db w)) w).
  assert (filter_user (Authenticated u)
            (mapgroupmember_set self
               (set_mapgroupmember (mapgroupmember (db w) ++ [m']) (db w)))
          = [m']) as Hone.
  { unfold filter_user, mapgroupmember_set in *.
    cbn [mapgroupmember set_mapgroupmember].
    rewrite !filter_app, Hnone, app_nil_l.
    rewrite (filter_cons _ m'), filter_nil, decide_True.
    - rewrite filter_cons, filter_nil, decide_True; [done|].
      split; simpl; [by eexists | done].
    - split; simpl; [by eexists | done]. }
  split_and!; try done.
  - unfold get_member. simpl. rewrite Hact. simpl.
    by rewrite Hone.
  - unfold has_member. simpl. rewrite Hact. simpl.
    by rewrite Hone.
Qed.

Lemma join_then_lookup_witness :
  ∃ m' w',
    MapGroupMember_save
      {| member_pk := None; user := Some 1; map_group := Some 1;
         date_joined := None; is_manager := false; show_real_name := true |}
      Sample.w_bob = (Ok m', w') ∧
    get_member Sample.g_bob (Authenticated Sample.alice) (db w') = Ok (Some m').
Proof.
  destruct (join_then_lookup Sample.g_bob Sample.alice
              {| member_pk := None; user := Some 1; map_group := Some 1;
                 date_joined := None; is_manager := false;
                 show_real_name := true |}
              Sample.w_bob)
    as (m' & w' & Hsave & _ & _ & _ & _ & Hget & _);
    [reflexivity | by eexists | reflexivity | reflexivity | reflexivity
    | reflexivity |].
  exists m', w'. split; [exact Hsave | exact Hget].
Defined.

(** ** More on the featured listings *)




(** X13: with at most one FeaturedRank per group, the featured and the
    not-featured view together hold every group exactly as often as the
    group table does: no group is lost and none is listed twice. *)
Theorem views_partition_group_table (d : DB) :
  NoDup (fg_map_group <$> featuredgroups d) →
  MapGroupFeaturedManager_get_queryset d
    ++ MapGroupNonFeaturedManager_get_queryset d
  ≡ₚ mapgroup d.
Proof.
  intros Hnd. rewrite featured_is_filter, not_featured_is_filter by done.
  apply filter_app_complement.
Qed.

Lemma views_partition_group_table_witness :
  MapGroupFeaturedManager_get_queryset Sample.db_featured
    ++ MapGroupNonFeaturedManager_get_queryset Sample.db_featured
  ≡ₚ mapgroup Sample.db_featured.
Proof.
  apply (views_partition_group_table Sample.db_featured). compute_done.
Defined.



(** ** Saving again, and saving activity records *)

Section save_base_again.
Context {R : Type} (key : R → option nat) (set_key : nat → R → R).
Context (violates : R → list R → Prop) `{∀ obj t, Decision (violates obj t)}.
Context (on_insert : R → R).
Hypothesis key_set_key : ∀ k r, key (set_key k r) = Some k.
Hypothesis key_on_insert : ∀ r, key (on_insert r) = key r.

Lemma update_row_same k new t :
  (∀ r, r ∈ t → key r = Some k → r = new) → update_row key k new t = t.
Proof.
  intros Hsame. unfold update_row. induction t as [|r t IH]; [done|].
  rewrite fmap_cons. f_equal.
  - case_decide as Hk; [|done]. symmetry. apply Hsame; [|done].
    apply elem_of_cons. by left.
  - apply IH. intros r' Hr'. apply Hsame, elem_of_cons. by right.
Qed.

(** Once an object is saved, saving what came back writes the same table. *)
Lemma save_base_again obj t obj' t' :
  save_base key set_key violates on_insert obj t = Ok (obj', t') →
  ¬ violates obj' t' →
  save_base key set_key violates on_insert obj' t' = Ok (obj', t').
Proof.
  intros Hsave Hok.
  destruct (save_base_key_is_Some key set_key violates on_insert key_set_key
              key_on_insert _ _ _ _ Hsave) as [k Hk].
  pose proof (save_base_elem_of _ _ _ _ _ _ _ _ Hsave) as Hin.
  rewrite (save_base_update key set_key violates on_insert obj' t' k);
    [|done|done|apply Exists_exists; eauto].
  do 2 f_equal. apply update_row_same. intros r Hr Hrk.
  apply save_base_Ok in Hsave as [_ Hcase].
  destruct Hcase as [(k' & Hk' & _ & -> & ->) | [(k' & Hk' & Hno & -> & ->) |
                     (_ & -> & ->)]].
  - apply (update_row_elem_of key) in Hr as [-> | [_ Hne]]; [done|].
    congruence.
  - apply elem_of_app in Hr as [Hr | ->%list_elem_of_singleton]; [|done].
    exfalso. apply Hno, Exists_exists. exists r. split; [done|].
    rewrite key_on_insert in Hk. congruence.
  - apply elem_of_app in Hr as [Hr | ->%list_elem_of_singleton]; [|done].
    exfalso. apply (next_pk_fresh key t r Hr).
    rewrite key_on_insert, key_set_key in Hk. congruence.
Qed.
End save_base_again.

Lemma MapGroup_not_violates_saved (obj obj' : MapGroup) (t t' : list MapGroup) :
  save_base pk set_pk MapGroup_violates id obj t = Ok (obj', t') →
  ¬ MapGroup_violates obj' t'.
Proof.
  intros Hsave.
  pose proof (MapGroup_save_base_fields _ _ _ _ Hsave)
    as (_ & _ & Howner & _ & Hperm & _ & Hsame).
  assert (∀ r, r ∈ t' → r = obj' ∨ r ∈ t) as Hrows.
  { intros r. by apply (save_base_rows pk set_pk MapGroup_violates id obj). }
  assert (is_Some (pk obj')) as Hsome
    by by apply (save_base_key_is_Some pk set_pk MapGroup_violates id)
         in Hsave.
  apply save_base_Ok in Hsave as [Hok _].
  intros [Hv | [Hv | Hv]].
  - apply Hok. left. congruence.
  - apply Hok. right. left. congruence.
  - apply Exists_exists in Hv as (r & Hr & Hother & Hcol).
    destruct (Hrows r Hr) as [-> | Hin]; [by apply Hother|].
    apply Hok. right. right. apply Exists_exists. exists r.
    split; [done|]. split; [|congruence].
    intros [Hs Heq]. apply Hother. rewrite (Hsame Hs). by split.
Qed.

(** X15: saving a group and then saving the object that came back, with
    nothing in between, writes nothing new: the second [save] returns the
    same object and leaves the world as the first one left it. *)
Theorem MapGroup_save_twice (slugify : string → string) (g g' : MapGroup)
    (w w' : World) :
  MapGroup_save slugify g w = (Ok g', w') →
  MapGroup_save slugify g' w' = (Ok g', w').
Proof.
  rewrite !MapGroup_save_run.
  destruct (save_base pk _ _ _ _ _) as [[g1 rows]|?] eqn:Hsave; [|done].
  intros [= -> <-].
  pose proof (MapGroup_save_base_fields _ _ _ _ Hsave) as (Hname & Hslug & _).
  assert (set_slug (slugify (name g')) g' = g') as ->.
  { simpl in Hname, Hslug. rewrite Hname, <- Hslug. by destruct g'. }
  cbn [db with_db mapgroup set_mapgroup].
  rewrite (save_base_again pk set_pk MapGroup_violates id) with (obj := set_slug (slugify (name g)) g) (t := mapgroup (db w)); try done.
  by apply MapGroup_not_violates_saved in Hsave.
Qed.

Lemma MapGroup_save_twice_witness :
  MapGroup_save AsciiSlugify.slugify Sample.g_fish_renamed
    (with_db (set_mapgroup [Sample.g_fish_renamed; Sample.g_new]
                Sample.db_two) Sample.w_two)
  = (Ok Sample.g_fish_renamed,
     with_db (set_mapgroup [Sample.g_fish_renamed; Sample.g_new]
                Sample.db_two) Sample.w_two).
Proof.
  apply (MapGroup_save_twice AsciiSlugify.slugify
           (set_name "New Name" Sample.g_fish) Sample.g_fish_renamed
           Sample.w_two).
  by vm_compute.
Defined.



(** ** Renaming and editing in a store built through the module *)

Lemma stored_group_saves (slugify : string → string) (d : DB)
    (self obj : MapGroup) :
  store_ok slugify d → self ∈ mapgroup d →
  pk obj = pk self → owner obj = owner self →
  permission_group obj = permission_group self →
  ∃ k, pk self = Some k ∧
       save_base pk set_pk MapGroup_violates id obj (mapgroup d)
         = Ok (obj, update_row pk k obj (mapgroup d)).
Proof.
  intros [_ [Hkeys Hsome] _ _ Hlink _ [Hperm _] _ Hown _] Hself Hpk Ho Hp.
  rewrite Forall_forall in Hsome. destruct (Hsome self Hself) as [k Hk].
  exists k. split; [done|].
  apply save_base_update; [| congruence | apply Exists_exists; eauto].
  rewrite Forall_forall in Hown. destruct (Hown self Hself) as [o Hso].
  unfold references in Hperm. rewrite Forall_forall in Hperm.
  destruct (proj1 (Exists_exists _ _) (Hperm self Hself))
    as (s & _ & [j Hj] & Hsj).
  intros [Hv | [Hv | Hv]]; [congruence | congruence |].
  apply Exists_exists in Hv as (r & Hr & Hother & Hcol).
  apply Hother. rewrite Hpk.
  assert (r = self) as ->
    by (apply (NoDup_fmap_eq permission_group (mapgroup d)); [done..|congruence]).
  split; [by eexists | done].
Qed.

Lemma stored_permission_group (slugify : string → string) (d : DB)
    (self : MapGroup) :
  store_ok slugify d → self ∈ mapgroup d →
  ∃ pg j, filter (λ g, refers_to (permission_group self) (group_pk g))
            (auth_group d) = [pg] ∧
          pg ∈ auth_group d ∧ group_pk pg = Some j ∧
          permission_group self = Some j.
Proof.
  intros [[Hkeys _] _ _ _ _ _ [Hperm _] _ _ _] Hself.
  unfold references in Hperm. rewrite Forall_forall in Hperm.
  destruct (proj1 (Exists_exists _ _) (Hperm self Hself))
    as (s & Hs & [j Hj] & Hsj).
  pose proof (filter_unique_column group_pk
                (λ g, refers_to (permission_group self) (group_pk g))
                (permission_group self) (auth_group d) Hkeys) as Hlen.
  assert (s ∈ filter (λ g, refers_to (permission_group self) (group_pk g))
                (auth_group d)) as Hin.
  { apply list_elem_of_filter. split; [|done]. split; [by eexists | done]. }
  destruct (filter _ (auth_group d)) as [|pg [|pg2 l]] eqn:Hf.
  - by apply elem_of_nil in Hin.
  - apply list_elem_of_singleton in Hin as <-.
    exists s, j. split_and!; try done. congruence.
  - exfalso. assert (length (pg :: pg2 :: l) ≤ 1); [|simpl in *; lia].
    apply Hlen. by intros g [_ ?].
Qed.

(** X17: renaming a stored group, in a store built through the module, has
    two outcomes only.  When a permission group other than the group's own
    already has the derived name, [rename] raises IntegrityError, with the
    new name and slug written to the group's row and the permission groups
    as they were; otherwise it returns the group with its new name and slug
    and the permission group under the derived name. *)
Theorem api_rename_outcomes (slugify : string → string) (self : MapGroup)
    (new_name : string) (w : World) :
  api_reachable slugify w → self ∈ mapgroup (db w) →
  let renamed := set_slug (slugify new_name) (set_name new_name self) in
  let taken :=
    ∃ p, p ∈ auth_group (db w) ∧ group_pk p ≠ permission_group self ∧
         group_name p = derived_name slugify new_name w in
  (taken ∧
   ∃ w', rename slugify self new_name w = (Raise IntegrityError, w') ∧
         renamed ∈ mapgroup (db w') ∧
         auth_group (db w') = auth_group (db w)) ∨
  (¬ taken ∧
   ∃ pg' w', rename slugify self new_name w = (Ok (renamed, pg'), w') ∧
             group_pk pg' = permission_group self ∧
             group_name pg' = derived_name slugify new_name w).
Proof.
  intros Hok%api_reachable_store_ok Hself renamed taken.
  destruct (stored_group_saves slugify (db w) self renamed Hok Hself
              eq_refl eq_refl eq_refl) as (k & Hk & Hsave).
  destruct (stored_permission_group slugify (db w) self Hok Hself)
    as (pg & j & Hfilter & Hpg & Hj & Hperm).
  assert (renamed ∈ update_row pk k renamed (mapgroup (db w))) as Hin.
  { apply list_elem_of_fmap. exists self. split; [|done]. by rewrite decide_True. }
  rewrite rename_run. cbv zeta. fold renamed. rewrite Hsave.
  change (permission_group renamed) with (permission_group self).
  rewrite Hfilter. cbn [queryset_get].
  change (name renamed) with new_name.
  fold (derived_name slugify new_name w).
  set (obj := set_group_name (derived_name slugify new_name w) pg).
  assert (Group_violates obj (auth_group (db w)) ↔ taken) as Htaken.
  { unfold Group_violates, unique_clash, taken. rewrite Exists_exists.
    split; intros (p & Hp & Hne & Hname); exists p; (split; [done|]);
      (split; [|done]).
    - intros Heq. apply Hne. split; [by eexists|]. simpl. congruence.
    - intros [_ Heq]. apply Hne. simpl in Heq. congruence. }
  destruct (decide (Group_violates obj (auth_group (db w)))) as [Hv | Hv].
  - left. split; [by apply Htaken|]. rewrite save_base_violates by done.
    eexists. split; [done|]. by split.
  - right. split; [by rewrite <- Htaken|].
    rewrite (save_base_update group_pk set_group_pk Group_violates id obj
               (auth_group (db w)) j); [|done|done|apply Exists_exists; eauto].
    do 2 eexists. split; [done|]. split; [simpl; congruence | done].
Qed.

Lemma api_rename_outcomes_witness :
  let renamed :=
    set_slug (AsciiSlugify.slugify "New Name")
      (set_name "New Name" Sample.g_fish) in
  let taken :=
    ∃ p, p ∈ auth_group (db Sample.w_two) ∧
         group_pk p ≠ permission_group Sample.g_fish ∧
         group_name p
           = derived_name AsciiSlugify.slugify "New Name" Sample.w_two in
  (taken ∧
   ∃ w', rename AsciiSlugify.slugify Sample.g_fish "New Name" Sample.w_two
           = (Raise IntegrityError, w') ∧
         renamed ∈ mapgroup (db w') ∧
         auth_group (db w') = auth_group (db Sample.w_two)) ∨
  (¬ taken ∧
   ∃ pg' w', rename AsciiSlugify.slugify Sample.g_fish "New Name" Sample.w_two
               = (Ok (renamed, pg'), w') ∧
             group_pk pg' = permission_group Sample.g_fish ∧
             group_name pg'
               = derived_name AsciiSlugify.slugify "New Name" Sample.w_two).
Proof.
  apply (api_rename_outcomes AsciiSlugify.slugify Sample.g_fish "New Name"
           Sample.w_two Sample_api_reachable_two).
  apply elem_of_cons. by left.
Defined.

Lemma queryset_exists_filter_fmap {A} (P : A → Prop) `{∀ x, Decision (P x)}
    (f : A → A) (l : list A) :
  (∀ x, x ∈ l → P (f x) ↔ P x) →
  queryset_exists (filter P (f <$> l)) = queryset_exists (filter P l).
Proof.
  intros Hf. induction l as [|x l IH]; [done|].
  assert (P (f x) ↔ P x) as Hx by (apply Hf, elem_of_cons; by left).
  assert (queryset_exists (filter P (f <$> l))
          = queryset_exists (filter P l)) as IH'.
  { apply IH. intros y Hy. apply Hf, elem_of_cons. by right. }
  rewrite fmap_cons, !filter_cons.
  destruct (decide (P (f x))) as [Hy | Hn]; destruct (decide (P x)) as [Hp | Hp];
    try done; exfalso; [by apply Hp, Hx | by apply Hn, Hx].
Qed.

(** X18: in a store built through the module, saving a stored Membership
    again with other flags (manager, show real name) always returns; it
    rewrites that one row, keeps its join date, and changes no answer of
    [has_member]. *)
Theorem api_membership_edit (slugify : string → string) (m : MapGroupMember)
    (manager real : bool) (w : World) :
  api_reachable slugify w → m ∈ mapgroupmember (db w) →
  let m2 := {| member_pk := member_pk m; user := user m;
               map_group := map_group m; date_joined := date_joined m;
               is_manager := manager; show_real_name := real |} in
  ∃ w',
    MapGroupMember_save m2 w = (Ok m2, w') ∧
    Forall2 (λ r r', (r = m → r' = m2) ∧ (r ≠ m → r' = r))
      (mapgroupmember (db w)) (mapgroupmember (db w')) ∧
    ∀ self user0,
      has_member self user0 (db w') = has_member self user0 (db w).
Proof.
  intros [_ _ [Hkeys Hsome] _ _ Hpair [_ Hfk] _ _ Huser]%api_reachable_store_ok
    Hm m2.
  rewrite Forall_forall in Hsome. destruct (Hsome m Hm) as [k Hk].
  rewrite Forall_forall in Huser. destruct (Huser m Hm) as [u Hu].
  unfold references in Hfk. rewrite Forall_forall in Hfk.
  destruct (proj1 (Exists_exists _ _) (Hfk m Hm)) as (g & _ & [j Hj] & Hg).
  assert (∀ r, r ∈ mapgroupmember (db w) → member_pk r = Some k → r = m)
    as Hsame.
  { intros r Hr Hrk. apply (NoDup_fmap_eq member_pk (mapgroupmember (db w)));
      [done..|congruence]. }
  assert (¬ MapGroupMember_violates m2 (mapgroupmember (db w))) as Hok.
  { intros [Hv | [Hv | Hv]]; simpl in Hv; [congruence | congruence |].
    apply Exists_exists in Hv as (r & Hr & Hother & Hcol).
    apply Hother. simpl.
    assert (r = m) as ->
      by by apply (NoDup_fmap_eq (λ r, (user r, map_group r))
                     (mapgroupmember (db w))).
    split; [by eexists | done]. }
  rewrite MapGroupMember_save_run.
  rewrite (save_base_update member_pk set_member_pk MapGroupMember_violates
             (set_date_joined (clock w)) m2 (mapgroupmember (db w)) k);
    [|done|done|apply Exists_exists; eauto].
  eexists. split; [done|].
  cbn [snd db with_db mapgroupmember set_mapgroupmember].
  split.
  - apply update_row_Forall2.
    + intros r Hr Hrk. rewrite (Hsame r Hr Hrk). by split.
    + intros r Hr Hrk. split; [|done]. intros ->. congruence.
  - intros self user0. unfold has_member, filter_user, mapgroupmember_set.
    cbn [mapgroupmember set_mapgroupmember]. rewrite !list_filter_filter.
    destruct (is_anonymous user0 || negb (any_is_active user0)); [done|].
    apply queryset_exists_filter_fmap. intros r Hr.
    case_decide as Hrk; [|done]. by rewrite (Hsame r Hr Hrk).
Qed.

Lemma api_membership_edit_witness :
  ∃ w',
    MapGroupMember_save
      {| member_pk := Some 1; user := Some 1; map_group := Some 1;
         date_joined := Some 1700000000%Z; is_manager := false;
         show_real_name := true |} Sample.w_fish
    = (Ok {| member_pk := Some 1; user := Some 1; map_group := Some 1;
             date_joined := Some 1700000000%Z; is_manager := false;
             show_real_name := true |}, w').
Proof.
  destruct (api_membership_edit AsciiSlugify.slugify Sample.m_alice false true
              Sample.w_fish Sample_api_reachable_fish)
    as (w' & Hsave & _).
  - apply elem_of_cons. by left.
  - exists w'. exact Hsave.
Defined.

(** X19: in a store built through the module [get_member] never raises: it
    returns the one Membership of the pair, or None. *)
Theorem api_get_member_returns (slugify : string → string) (self : MapGroup)
    (user0 : AnyUser) (w : World) :
  api_reachable slugify w →
  get_member self user0 (db w) = Ok None ∨
  ∃ m, get_member self user0 (db w) = Ok (Some m) ∧
       m ∈ mapgroupmember (db w) ∧ membership_of self user0 m.
Proof.
  intros [_ _ _ _ _ Hpair _ _ _ _]%api_reachable_store_ok.
  pose proof (membership_at_most_one self user0 (db w) Hpair) as Hlen.
  unfold get_member.
  destruct (is_anonymous user0 || negb (any_is_active user0)); [by left|].
  destruct (filter_user user0 (mapgroupmember_set self (db w)))
    as [|m [|m' l]] eqn:Hrows; simpl in *; [by left | | lia].
  right. exists m. split; [done|].
  apply filter_user_elem_of. rewrite Hrows. apply elem_of_cons. by left.
Qed.

Lemma api_get_member_returns_witness :
  get_member Sample.g_fish (Authenticated Sample.alice) (db Sample.w_two)
    = Ok None ∨
  ∃ m, get_member Sample.g_fish (Authenticated Sample.alice) (db Sample.w_two)
         = Ok (Some m) ∧
       m ∈ mapgroupmember (db Sample.w_two) ∧
       membership_of Sample.g_fish (Authenticated Sample.alice) m.
Proof.
  exact (api_get_member_returns AsciiSlugify.slugify Sample.g_fish
           (Authenticated Sample.alice) Sample.w_two
           Sample_api_reachable_two).
Defined.

(** ** The name shown in a group *)

(** X20: the Membership that [create] returns for the owner shows the
    owner's short name, and so does every new Membership saved without
    [show_real_name]; a stored Membership saved again with [show_real_name]
    set shows the full name. *)
Theorem create_member_shows_short_name (slugify : string → string)
    (get_full_name get_short_name : nat → string) (name0 : string)
    (owner0 : User) (open : bool) (blurb0 : string) (w w' : World)
    (mg : MapGroup) (member : MapGroupMember) :
  create slugify name0 owner0 open blurb0 w = (Ok (mg, member), w') →
  user_name_for_group get_full_name get_short_name member
    = Ok (get_short_name (user_pk owner0)) ∧
  ∀ w2 m2,
    MapGroupMember_save
      {| member_pk := member_pk member; user := user member;
         map_group := map_group member; date_joined := date_joined member;
         is_manager := is_manager member; show_real_name := true |} w'
    = (Ok m2, w2) →
    user_name_for_group get_full_name get_short_name m2
      = Ok (get_full_name (user_pk owner0)).
Proof.
  intros (_ & _ & _ & _ & _ & _ & _ & Huser & _ & _ & _ & Hreal & _)
    %create_result.
  split.
  - unfold user_name_for_group. by rewrite Huser, Hreal.
  - intros w2 m2. rewrite MapGroupMember_save_run.
    destruct (save_base _ _ _ _ _ _) as [[m3 rows]|?] eqn:Hsave; [|done].
    intros [= -> _].
    apply MapGroupMember_save_base_fields in Hsave as (Hu & _ & _ & Hr).
    unfold user_name_for_group. simpl in Hu, Hr. by rewrite Hu, Hr, Huser.
Qed.

Lemma create_member_shows_short_name_witness :
  user_name_for_group (λ _, "Alice Liddell") (λ _, "Alice") Sample.m_alice
    = Ok "Alice".
Proof.
  apply (create_member_shows_short_name AsciiSlugify.slugify
           (λ _, "Alice Liddell") (λ _, "Alice") "Fish" Sample.alice false
           "anglers" Sample.w_empty Sample.w_fish Sample.g_fish).
  apply Sample_create_fish.
Defined.
